(** * jsonrescue: the repair-and-validate pipeline of [json_parser.py]

    A shallow embedding of [Schema.validated] and of [JSONParser] (candidate
    extraction, the five repair passes, [parse]) together with the library
    functions they call ([int], [float], [str.strip], [re.sub],
    [regex.findall], [json.loads]), and the properties of the specification
    stated over it.

    Modelling conventions.
    - A Python [str] is a [list ascii].  The code only ever compares
      characters with ASCII characters; the character classes [\s], [\w],
      [\d] and [str.isspace] are the ASCII ones, every byte above 127 being
      an ordinary character.
    - A Python [dict] is an association list in insertion order with
      distinct keys ([dict_set] keeps them distinct).
    - A Python [float] is kept as an exact decimal [m * 10^e] (or an
      infinity, or NaN): no property below depends on binary rounding.
    - [None] is the value [VNone]; an exception that leaves a function is
      the outcome [Raise].  [validated] mutates its argument in place, so
      its model returns the outcome together with the argument as it is
      left behind.
    - The [print] calls of [validated] write to a diagnostic sink and are
      left out, and so are the limits of the interpreter (the depth of
      recursion, the cap on the digits of an integer literal). *)

From Stdlib Require Import List Ascii String ZArith Bool Lia Arith.
Import ListNotations.

#[local] Set Warnings "-register-all".

Local Open Scope list_scope.
Local Open Scope char_scope.

(** ** Python strings *)

Definition str := list ascii.

Definition lit (s : string) : str := list_ascii_of_string s.

Coercion lit : string >-> str.

(** The double quote, written apart because a string literal cannot hold
    it undoubled. *)
Definition dq : ascii := "034".
Definition sq : ascii := "039".
Definition backslash : ascii := "092".
Definition LF : ascii := "010".
Definition CR : ascii := "013".
Definition TAB : ascii := "009".

(** [txt] reads a literal in which every backquote stands for a double
    quote. *)
Definition txt (s : string) : str :=
  map (fun c => if Ascii.eqb c "`" then dq else c) (lit s).

Fixpoint str_eqb (a b : str) : bool :=
  match a, b with
  | [], [] => true
  | x :: a', y :: b' => Ascii.eqb x y && str_eqb a' b'
  | _, _ => false
  end.

Definition code (c : ascii) : nat := nat_of_ascii c.

Definition between (lo hi : nat) (c : ascii) : bool :=
  (lo <=? code c)%nat && (code c <=? hi)%nat.

(** [c.isspace()], which is also the class [\s]. *)
Definition isspace (c : ascii) : bool :=
  between 9 13 c || between 28 32 c.

(** The class [\d]. *)
Definition isdigit (c : ascii) : bool := between 48 57 c.

(** The class [[A-Za-z0-9_]], which is also [\w]. *)
Definition isword (c : ascii) : bool :=
  between 65 90 c || between 97 122 c || isdigit c || Ascii.eqb c "_".

Definition mem (c : ascii) (cs : str) : bool := existsb (Ascii.eqb c) cs.

Fixpoint lstrip (s : str) : str :=
  match s with
  | c :: r => if isspace c then lstrip r else s
  | [] => []
  end.

Definition rstrip (s : str) : str := rev (lstrip (rev s)).

(** [s.strip()] *)
Definition strip (s : str) : str := rstrip (lstrip s).

Definition startswith (s : str) (c : ascii) : bool :=
  match s with
  | x :: _ => Ascii.eqb x c
  | [] => false
  end.

Definition endswith (s : str) (c : ascii) : bool := startswith (rev s) c.

(** [s[1:-1]] *)
Definition slice_1_m1 (s : str) : str := removelast (tl s).

(** [s.replace(old, new)] for a one-character [old]. *)
Definition replace (old : ascii) (new : str) (s : str) : str :=
  flat_map (fun c => if Ascii.eqb c old then new else [c]) s.

(** ** Decoded values *)

Inductive pyfloat : Type :=
| FDec (m e : Z)
| FInf (negative : bool)
| FNaN.

Inductive value : Type :=
| VNone
| VBool (b : bool)
| VInt (z : Z)
| VFloat (f : pyfloat)
| VStr (s : str)
| VList (l : list value)
| VDict (d : list (str * value)).

Definition dict := list (str * value).

(** [key in d] *)
Definition dict_mem (key : str) (d : dict) : bool :=
  existsb (fun kv => str_eqb (fst kv) key) d.

(** [d[key]] for a key that may be absent. *)
Fixpoint dict_get (d : dict) (key : str) : option value :=
  match d with
  | [] => None
  | (k, v) :: d' => if str_eqb k key then Some v else dict_get d' key
  end.

(** [d[key] = v]: an existing key keeps its place. *)
Fixpoint dict_set (d : dict) (key : str) (v : value) : dict :=
  match d with
  | [] => [(key, v)]
  | (k, x) :: d' =>
      if str_eqb k key then (k, v) :: d' else (k, x) :: dict_set d' key v
  end.

(** [bool(v)] *)
Definition truthy (v : value) : bool :=
  match v with
  | VNone => false
  | VBool b => b
  | VInt z => negb (z =? 0)%Z
  | VFloat (FDec m _) => negb (m =? 0)%Z
  | VFloat _ => true
  | VStr s => negb (Nat.eqb (List.length s) 0)
  | VList l => negb (Nat.eqb (List.length l) 0)
  | VDict d => negb (Nat.eqb (List.length d) 0)
  end.

(** ** Exceptions *)

Inductive exn : Type :=
| ValueError (msg : str)
| TypeError (msg : str)
| JSONDecodeError (msg : str).

Inductive outcome (A : Type) : Type :=
| Ret (a : A)
| Raise (e : exn).

Arguments Ret {A} a.
Arguments Raise {A} e.

(** ** [int(s)] and [float(s)] on a string *)

Definition digit_val (c : ascii) : Z := Z.of_nat (code c - 48).

(** A run of digits in which single underscores may separate digits;
    the whole of [s] must be such a run. *)
Fixpoint digitpart (acc : Z) (after_digit : bool) (s : str) : option Z :=
  match s with
  | [] => if after_digit then Some acc else None
  | c :: r =>
      if isdigit c then digitpart (acc * 10 + digit_val c) true r
      else if Ascii.eqb c "_" && after_digit then digitpart acc false r
      else None
  end.

Definition signed (s : str) : bool * str :=
  match s with
  | "-" :: r => (true, r)
  | "+" :: r => (false, r)
  | _ => (false, s)
  end.

Definition int_of_str (s : str) : option Z :=
  let (neg, body) := signed (strip s) in
  match digitpart 0 false body with
  | Some z => Some (if neg then (- z)%Z else z)
  | None => None
  end.

(** [repr(s)], for a string that needs no escape. *)
Definition repr (s : str) : str := [sq] ++ s ++ [sq].

(** [int(s)]: [ValueError] when [s] is not an integer literal. *)
Definition py_int (s : str) : outcome value :=
  match int_of_str s with
  | Some z => Ret (VInt z)
  | None =>
      Raise (ValueError (lit "invalid literal for int() with base 10: " ++ repr s))
  end.

Fixpoint span (p : ascii -> bool) (s : str) : str * str :=
  match s with
  | c :: r => if p c then let (a, b) := span p r in (c :: a, b) else ([], s)
  | [] => ([], [])
  end.

Definition lower (c : ascii) : ascii :=
  if between 65 90 c then ascii_of_nat (code c + 32) else c.

Fixpoint drop_zeros (fuel : nat) (m e : Z) : Z * Z :=
  match fuel with
  | O => (m, e)
  | S fuel' =>
      if (m =? 0)%Z then (0%Z, 0%Z)
      else if (m mod 10 =? 0)%Z then drop_zeros fuel' (m / 10)%Z (e + 1)%Z
      else (m, e)
  end.

Definition mkdec (neg : bool) (m e : Z) (digits : nat) : pyfloat :=
  let (m', e') := drop_zeros (S digits) m e in
  FDec (if neg then (- m')%Z else m') e'.

Definition count_digits (s : str) : nat := List.length (filter isdigit s).

(** The optional parts of a decimal: a missing part reads as zero. *)
Definition opt_digitpart (s : str) : option Z :=
  match s with
  | [] => Some 0%Z
  | _ => digitpart 0 false s
  end.

Definition float_of_str (s : str) : option pyfloat :=
  let (neg, body) := signed (strip s) in
  let low := map lower body in
  if str_eqb low (lit "inf") || str_eqb low (lit "infinity") then Some (FInf neg)
  else if str_eqb low (lit "nan") then Some FNaN
  else
    let isnum c := isdigit c || Ascii.eqb c "_" in
    let (ip, r1) := span isnum body in
    let (fp, r2) :=
      match r1 with
      | "." :: r => span isnum r
      | _ => ([], r1)
      end in
    let ex :=
      match r2 with
      | [] => Some 0%Z
      | c :: r =>
          if Ascii.eqb (lower c) "e" then
            let (eneg, ebody) := signed r in
            option_map (fun z => if eneg then (- z)%Z else z)
                       (digitpart 0 false ebody)
          else None
      end in
    match ip, fp with
    | [], [] => None
    | _, _ =>
        match opt_digitpart ip, opt_digitpart fp, ex with
        | Some _, Some _, Some e =>
            match digitpart 0 false (filter isdigit (ip ++ fp)) with
            | Some m =>
                Some (mkdec neg m (e - Z.of_nat (count_digits fp))
                            (count_digits (ip ++ fp)))
            | None => None
            end
        | _, _, _ => None
        end
    end.

(** [float(s)] *)
Definition py_float (s : str) : outcome value :=
  match float_of_str s with
  | Some f => Ret (VFloat f)
  | None => Raise (ValueError (lit "could not convert string to float: " ++ repr s))
  end.

(** ** Schema *)

Inductive Schema : Type :=
| mkSchema (type : str) (properties : list (str * Schema))
           (items : option Schema) (required : list str).

Definition type (s : Schema) : str := let 'mkSchema t _ _ _ := s in t.
Definition properties (s : Schema) : list (str * Schema) :=
  let 'mkSchema _ p _ _ := s in p.
Definition items (s : Schema) : option Schema := let 'mkSchema _ _ i _ := s in i.
Definition required (s : Schema) : list str := let 'mkSchema _ _ _ r := s in r.

(** The classes that [type_map] and the coercion name. *)
Inductive pytype : Type :=
| T_str | T_int | T_float | T_int_float | T_bool | T_NoneType | T_object.

(** [type_map.get(self.type, object)] *)
Definition type_map_get (t : str) : pytype :=
  if str_eqb t (lit "string") then T_str
  else if str_eqb t (lit "number") then T_int_float
  else if str_eqb t (lit "boolean") then T_bool
  else if str_eqb t (lit "null") then T_NoneType
  else T_object.

(** [isinstance(v, t)]: [bool] is a subclass of [int]. *)
Definition isinstance (v : value) (t : pytype) : bool :=
  match t, v with
  | T_object, _ => true
  | T_str, VStr _ => true
  | T_int, (VInt _ | VBool _) => true
  | T_float, VFloat _ => true
  | T_int_float, (VInt _ | VBool _ | VFloat _) => true
  | T_bool, VBool _ => true
  | T_NoneType, VNone => true
  | _, _ => false
  end.

(** [t(data)] for a string [data]. *)
Definition call_type (t : pytype) (data : str) : outcome value :=
  match t with
  | T_str => Ret (VStr data)
  | T_int => py_int data
  | T_float => py_float data
  | T_bool => Ret (VBool (truthy (VStr data)))
  | T_NoneType => Raise (TypeError (lit "NoneType takes no arguments"))
  | T_object => Raise (TypeError (lit "object() takes no arguments"))
  | T_int_float => Raise (TypeError (lit "'tuple' object is not callable"))
  end.

(** The branch of [validated] for the basic types. *)
Definition validated_basic (t : str) (data : value) : outcome value :=
  let accepted_type := type_map_get t in
  match data with
  | VStr s =>
      if negb (isinstance data accepted_type) then
        let accepted_type :=
          if str_eqb t (lit "number")
          then (if mem "." s then T_float else T_int)
          else accepted_type in
        match call_type accepted_type s with
        | Raise (TypeError _) => Ret VNone
        | r => r
        end
      else Ret data
  | _ => Ret data
  end.

(** The loop of the object branch over [self.properties.items()];
    [validated] is the method itself, for the recursive calls.  A value
    that was validated in place stays in the mapping when the loop stops
    early. *)
Fixpoint validate_properties
  (validated : Schema -> value -> outcome value * value)
  (ps : list (str * Schema)) (data : dict) {struct ps} : outcome value * dict :=
  match ps with
  | [] => (Ret (VDict data), data)
  | (key, sub_schema) :: ps' =>
      match dict_get data key with
      | None => validate_properties validated ps' data
      | Some x =>
          match validated sub_schema x with
          | (Raise e, x') => (Raise e, dict_set data key x')
          | (Ret VNone, x') => (Ret VNone, dict_set data key x')
          | (Ret value, _) =>
              validate_properties validated ps' (dict_set data key value)
          end
      end
  end.

(** The object branch once [data] is a mapping. *)
Definition validate_mapping
  (validated : Schema -> value -> outcome value * value)
  (properties : list (str * Schema)) (required : list str) (data : dict)
  : outcome value * dict :=
  match required with
  | _ :: _ =>
      match filter (fun key => negb (dict_mem key data)) required with
      | _ :: _ => (Ret VNone, data)
      | [] => validate_properties validated properties data
      end
  | [] =>
      if negb (existsb (fun key => dict_mem key data) (map fst properties))
      then (Ret VNone, data)
      else validate_properties validated properties data
  end.

(** The loop of the array branch over the items: [done] are the items
    already checked. *)
Fixpoint validate_items (validated_item : value -> outcome value * value)
  (done todo : list value) {struct todo} : outcome value * list value :=
  match todo with
  | [] => (Ret (VList done), done)
  | item :: todo' =>
      match validated_item item with
      | (Raise e, item') => (Raise e, done ++ item' :: todo')
      | (Ret v, item') =>
          if negb (truthy v) then (Ret VNone, done ++ item' :: todo')
          else validate_items validated_item (done ++ [item']) todo'
      end
  end.

(** [Schema.validated]: the outcome, and [data] as the call leaves it. *)
Fixpoint validated (s : Schema) (data : value) {struct s}
  : outcome value * value :=
  match s with
  | mkSchema type properties items required =>
      if str_eqb type (lit "object") then
        match data with
        | VList [] => (Ret VNone, data)
        | VList (VDict d :: rest) =>
            let (r, d') := validate_mapping validated properties required d in
            (r, VList (VDict d' :: rest))
        | VList (_ :: _) => (Ret VNone, data)
        | VDict d =>
            let (r, d') := validate_mapping validated properties required d in
            (r, VDict d')
        | _ => (Ret VNone, data)
        end
      else if str_eqb type (lit "array") then
        let on_list (l : list value) : outcome value * list value :=
          match items with
          | Some items_schema => validate_items (validated items_schema) [] l
          | None => (Ret (VList l), l)
          end in
        match data with
        | VDict [] => (Ret VNone, data)
        | VDict ((k, VList l) :: rest) =>
            let (r, l') := on_list l in (r, VDict ((k, VList l') :: rest))
        | VDict (_ :: _) => (Ret VNone, data)
        | VList l => let (r, l') := on_list l in (r, VList l')
        | _ => (Ret VNone, data)
        end
      else (validated_basic type data, data)
  end.

(** ** Regular expressions

    The backtracking matcher of Python's [re]: alternatives are tried from
    the left, a star takes as many rounds as it can and gives them back one
    at a time.  The continuation [k] stands for the rest of the pattern; it
    is given what is left of the input and the groups captured so far. *)

Inductive regex : Type :=
| Eps
| Cls (p : ascii -> bool)
| Seq (r1 r2 : regex)
| Alt (r1 r2 : regex)
| Star (r : regex)
| Group (n : nat) (r : regex)
| Eol.

Definition captures := list (nat * str).

Fixpoint group (caps : captures) (n : nat) : str :=
  match caps with
  | [] => []
  | (m, s) :: caps' => if Nat.eqb m n then s else group caps' n
  end.

(** The part of [s] that was consumed when [rest] is what is left. *)
Definition taken (s rest : str) : str :=
  firstn (List.length s - List.length rest) s.

Fixpoint rmatch (r : regex) (s : str) (caps : captures)
  (k : str -> captures -> option (str * captures)) {struct r}
  : option (str * captures) :=
  match r with
  | Eps => k s caps
  | Cls p =>
      match s with
      | c :: s' => if p c then k s' caps else None
      | [] => None
      end
  | Seq r1 r2 => rmatch r1 s caps (fun s1 caps1 => rmatch r2 s1 caps1 k)
  | Alt r1 r2 =>
      match rmatch r1 s caps k with
      | Some m => Some m
      | None => rmatch r2 s caps k
      end
  | Star r1 =>
      (fix rounds (n : nat) (s : str) (caps : captures) {struct n} :=
         match n with
         | O => k s caps
         | S n' =>
             match rmatch r1 s caps
                     (fun s' caps' =>
                        if (List.length s' <? List.length s)%nat
                        then rounds n' s' caps' else None) with
             | Some m => Some m
             | None => k s caps
             end
         end) (List.length s) s caps
  | Group n r1 =>
      rmatch r1 s caps (fun s' caps' => k s' ((n, taken s s') :: caps'))
  | Eol =>
      match s with
      | [] => k s caps
      | [c] => if Ascii.eqb c LF then k s caps else None
      | _ => None
      end
  end.

Definition Chr (c : ascii) : regex := Cls (Ascii.eqb c).
Definition OneOf (cs : str) : regex := Cls (fun c => mem c cs).
Definition NoneOf (cs : str) : regex := Cls (fun c => negb (mem c cs)).
Definition Plus (r : regex) : regex := Seq r (Star r).
Definition Opt (r : regex) : regex := Alt r Eps.
Definition Word (w : str) : regex := fold_right (fun c r => Seq (Chr c) r) Eps w.

Notation "r1 ;; r2" := (Seq r1 r2) (at level 61, right associativity).

(** [pattern.match(s)]: a match at the start of [s], with the whole match
    as group 0. *)
Definition re_match (r : regex) (s : str) : option (str * captures) :=
  rmatch (Group 0 r) s [] (fun rest caps => Some (rest, caps)).

(** [pattern.sub(repl, s)].  [skip] counts the characters of the last
    match that are still to be passed over.  No pattern of this program
    matches the empty string, and an empty match is taken for none. *)
Fixpoint re_sub_from (r : regex) (repl : captures -> str) (skip : nat)
  (s : str) : str :=
  match s with
  | [] => []
  | c :: s' =>
      match skip with
      | S skip' => re_sub_from r repl skip' s'
      | O =>
          match re_match r s with
          | Some (rest, caps) =>
              match List.length s - List.length rest with
              | S n => repl caps ++ re_sub_from r repl n s'
              | O => c :: re_sub_from r repl 0 s'
              end
          | None => c :: re_sub_from r repl 0 s'
          end
      end
  end.

Definition re_sub (r : regex) (repl : captures -> str) (s : str) : str :=
  re_sub_from r repl 0 s.

(** ** The repair passes *)

(** The pattern, token by token: [( [{,] \s* ) ( [A-Za-z0-9_]+ ) \s* :] *)
Definition fix_keys_pattern : regex :=
  Group 1 (OneOf (lit "{,") ;; Star (Cls isspace)) ;;
  Group 2 (Plus (Cls isword)) ;;
  Star (Cls isspace) ;; Chr ":".

Definition fix_keys_replace (m : captures) : str :=
  let prefix := group m 1 in
  let key := group m 2 in
  let quoted_key :=
    if startswith key sq && endswith key sq then [dq] ++ slice_1_m1 key ++ [dq]
    else if startswith key dq && endswith key dq then key
    else [dq] ++ key ++ [dq] in
  prefix ++ quoted_key ++ [":"].

Definition fix_keys (json_str : str) : str :=
  re_sub fix_keys_pattern fix_keys_replace json_str.

(** The pattern, token by token, DQ being the double quote:
    [( : \s* ) ( [^ { \[ \] DQ , } \] \s ] [^ , \] } ]* )] *)
Definition fix_string_values_pattern : regex :=
  Group 1 (Chr ":" ;; Star (Cls isspace)) ;;
  Group 2 (Cls (fun c => negb (mem c (lit "{[]" ++ [dq] ++ lit ",}]") || isspace c)) ;;
           Star (NoneOf (lit ",]}"))).

(** [^ ( true | false | null ) $], tried at the start of the value. *)
Definition literal_pattern : regex :=
  Group 1 (Alt (Word (lit "true")) (Alt (Word (lit "false")) (Word (lit "null")))) ;; Eol.

(** [^ -? \d+ ( \. \d+ )? $], tried at the start of the value. *)
Definition number_pattern : regex :=
  Opt (Chr "-") ;; Plus (Cls isdigit) ;;
  Opt (Group 1 (Chr "." ;; Plus (Cls isdigit))) ;; Eol.

Definition matches (r : regex) (s : str) : bool :=
  match re_match r s with
  | Some _ => true
  | None => false
  end.

Definition fix_string_values_replace (m : captures) : str :=
  let prefix := group m 1 in
  let value := strip (group m 2) in
  if matches literal_pattern value then prefix ++ value
  else if matches number_pattern value then prefix ++ value
  else if startswith value sq && endswith value sq
  then prefix ++ [dq] ++ slice_1_m1 value ++ [dq]
  else if startswith value dq && endswith value dq then prefix ++ value
  else prefix ++ [dq] ++ value ++ [dq].

Definition fix_string_values (json_str : str) : str :=
  re_sub fix_string_values_pattern fix_string_values_replace json_str.

(** The second stage of the escape pass: the walk over the quotes.
    [s] is what is left from index [i] on, so the look-ahead from [i + 1]
    reads the tail of [s]. *)
Fixpoint escape_quotes (in_string : bool) (s : str) : str :=
  match s with
  | [] => []
  | char :: s' =>
      if Ascii.eqb char dq then
        if negb in_string then dq :: escape_quotes true s'
        else
          match lstrip s' with
          | [] => dq :: escape_quotes false s'
          | c :: _ =>
              if mem c (lit ":,}]") then dq :: escape_quotes false s'
              else backslash :: dq :: escape_quotes in_string s'
          end
      else char :: escape_quotes in_string s'
  end.

Definition escape_illegal_characters (json_str : str) : str :=
  let json_str := replace backslash [backslash; backslash] json_str in
  let json_str :=
    replace TAB [backslash; "t"]
      (replace CR [backslash; "r"]
         (replace LF [backslash; "n"] json_str)) in
  escape_quotes false json_str.

(** The bracket-closure pass, as the loop runs it. *)
Record closure_state : Type := mkState {
  stack : list ascii;
  result : list ascii;
  in_string : option ascii;
  escape : bool
}.

(** [opening_brackets[c]] *)
Definition opening_brackets (c : ascii) : option ascii :=
  if Ascii.eqb c "{" then Some "}"
  else if Ascii.eqb c "[" then Some "]"
  else None.

(** [closing_brackets[c]] *)
Definition closing_brackets (c : ascii) : option ascii :=
  if Ascii.eqb c "}" then Some "{"
  else if Ascii.eqb c "]" then Some "["
  else None.

Definition set_stack (st : closure_state) (x : list ascii) : closure_state :=
  mkState x (result st) (in_string st) (escape st).
Definition set_result (st : closure_state) (x : list ascii) : closure_state :=
  mkState (stack st) x (in_string st) (escape st).
Definition set_in_string (st : closure_state) (x : option ascii) : closure_state :=
  mkState (stack st) (result st) x (escape st).
Definition set_escape (st : closure_state) (x : bool) : closure_state :=
  mkState (stack st) (result st) (in_string st) x.

(** One round of the [for] loop; the end of a list is the top of the
    stack, as [append] and [pop] have it. *)
Definition closure_step (st : closure_state) (char : ascii) : closure_state :=
  let st := set_result st (result st ++ [char]) in
  if escape st then set_escape st false
  else if Ascii.eqb char backslash then set_escape st true
  else if Ascii.eqb char dq || Ascii.eqb char sq then
    match in_string st with
    | None => set_in_string st (Some char)
    | Some q => if Ascii.eqb q char then set_in_string st None else st
    end
  else
    match in_string st with
    | Some _ => st
    | None =>
        match opening_brackets char, closing_brackets char with
        | Some _, _ => set_stack st (stack st ++ [char])
        | None, Some opener =>
            match rev (stack st) with
            | top :: _ =>
                if Ascii.eqb top opener
                then set_stack st (removelast (stack st))
                else set_result st (removelast (result st))
            | [] => set_result st (removelast (result st))
            end
        | None, None => st
        end
    end.

(** The closing [while] loop: pop an opener, append its closer. *)
Fixpoint close_unclosed (n : nat) (stack result : list ascii) : list ascii :=
  match n with
  | O => result
  | S n' =>
      match rev stack with
      | [] => result
      | opening :: _ =>
          close_unclosed n' (removelast stack)
            (result ++ match opening_brackets opening with
                       | Some closer => [closer]
                       | None => []
                       end)
      end
  end.

Definition ensure_ending_brackets (json_str : str) : str :=
  let st := fold_left closure_step json_str (mkState [] [] None false) in
  close_unclosed (List.length (stack st)) (stack st) (result st).

(** [} \s* {] *)
Definition adjacent_objects_pattern : regex :=
  Chr "}" ;; Star (Cls isspace) ;; Chr "{".

(** [\] \s* \[] *)
Definition adjacent_arrays_pattern : regex :=
  Chr "]" ;; Star (Cls isspace) ;; Chr "[".

(** The pattern, token by token, DQ being the double quote:
    [( DQ : \s* [^ DQ , { } \[ \] ]+ ) \s* DQ ( \w+ ) DQ :] *)
Definition missing_comma_pattern : regex :=
  Group 1 (Chr dq ;; Chr ":" ;; Star (Cls isspace) ;;
           Plus (NoneOf ([dq] ++ lit ",{}[]"))) ;;
  Star (Cls isspace) ;; Chr dq ;; Group 2 (Plus (Cls isword)) ;;
  Chr dq ;; Chr ":".

Definition insert_missing_commas (json_str : str) : str :=
  let json_str := re_sub adjacent_objects_pattern (fun _ => lit "},{") json_str in
  let json_str := re_sub adjacent_arrays_pattern (fun _ => lit "],[") json_str in
  re_sub missing_comma_pattern
    (fun m => group m 1 ++ lit ", " ++ [dq] ++ group m 2 ++ [dq] ++ [":"]) json_str.

Definition fix_json (json_str : str) : str :=
  let json_str := fix_keys json_str in
  let json_str := fix_string_values json_str in
  let json_str := escape_illegal_characters json_str in
  let json_str := ensure_ending_brackets json_str in
  let json_str := insert_missing_commas json_str in
  json_str.

(** ** Candidate extraction

    [BRACE_BRACKET] calls itself, which [regex] has not: its matcher is
    written out.  The pattern is

      a brace, then any number of items, then the closing brace, or
      a square bracket, then any number of items, then its closer,

    an item being a character other than the two brackets of the kind at
    hand or, failing that, a match of the whole pattern.  [depth] bounds
    the nesting of the calls and [n] the rounds of a star; the length of
    the input is enough for both. *)

Fixpoint items_star (call : str -> (str -> option str) -> option str)
  (op cl : ascii) (n : nat) (s : str) (k : str -> option str) {struct n}
  : option str :=
  match n with
  | O => k s
  | S n' =>
      let by_class :=
        match s with
        | c :: s' =>
            if negb (Ascii.eqb c op || Ascii.eqb c cl)
            then items_star call op cl n' s' k else None
        | [] => None
        end in
      match by_class with
      | Some m => Some m
      | None =>
          match call s (fun s' => items_star call op cl n' s' k) with
          | Some m => Some m
          | None => k s
          end
      end
  end.

Definition expect (c : ascii) (k : str -> option str) (s : str) : option str :=
  match s with
  | x :: s' => if Ascii.eqb x c then k s' else None
  | [] => None
  end.

Fixpoint brace_bracket (depth : nat) (s : str) (k : str -> option str)
  {struct depth} : option str :=
  match depth with
  | O => None
  | S depth' =>
      match s with
      | c :: s' =>
          if Ascii.eqb c "{" then
            items_star (brace_bracket depth') "{" "}" (List.length s') s'
                       (expect "}" k)
          else if Ascii.eqb c "[" then
            items_star (brace_bracket depth') "[" "]" (List.length s') s'
                       (expect "]" k)
          else None
      | [] => None
      end
  end.

(** A match of [BRACE_BRACKET] at the start of [s]: what is left. *)
Definition brace_bracket_match (s : str) : option str :=
  brace_bracket (List.length s) s Some.

(** [BRACE_BRACKET.findall(text)]: the pattern has one group, which spans
    it, so the matches themselves are listed. *)
Fixpoint findall_from (skip : nat) (s : str) : list str :=
  match s with
  | [] => []
  | _ :: s' =>
      match skip with
      | S skip' => findall_from skip' s'
      | O =>
          match brace_bracket_match s with
          | Some rest =>
              match List.length s - List.length rest with
              | S n => taken s rest :: findall_from n s'
              | O => findall_from 0 s'
              end
          | None => findall_from 0 s'
          end
      end
  end.

Definition BRACE_BRACKET_findall (text : str) : list str := findall_from 0 text.

Definition extract_json_candidates (text : str) : list str :=
  match BRACE_BRACKET_findall text with
  | [] => [ensure_ending_brackets text]
  | candidates => candidates
  end.

(** ** [json.loads]

    The strict decoder of Python's [json] module, for a [str] argument:
    objects, arrays, strings with their escapes, numbers, the three
    literals and the three names [NaN], [Infinity], [-Infinity]; nothing
    but white space may follow the value.  [None] stands for
    [JSONDecodeError].  A character escaped as [\uXXXX] is written in
    UTF-8. *)

Definition is_json_ws (c : ascii) : bool := mem c [" "; TAB; LF; CR].

Fixpoint skip_ws (s : str) : str :=
  match s with
  | c :: r => if is_json_ws c then skip_ws r else s
  | [] => []
  end.

Fixpoint strip_prefix (p s : str) : option str :=
  match p, s with
  | [], _ => Some s
  | x :: p', y :: s' => if Ascii.eqb x y then strip_prefix p' s' else None
  | _ :: _, [] => None
  end.

Definition hex_val (c : ascii) : option N :=
  if isdigit c then Some (N.of_nat (code c - 48))
  else if between 97 102 c then Some (N.of_nat (code c - 87))
  else if between 65 70 c then Some (N.of_nat (code c - 55))
  else None.

Definition hex4 (s : str) : option (N * str) :=
  match s with
  | a :: b :: c :: d :: r =>
      match hex_val a, hex_val b, hex_val c, hex_val d with
      | Some x, Some y, Some z, Some w =>
          Some ((((x * 16 + y) * 16 + z) * 16 + w)%N, r)
      | _, _, _, _ => None
      end
  | _ => None
  end.

Definition utf8 (u : N) : str :=
  let byte n := ascii_of_N n in
  (if u <? 128 then [byte u]
   else if u <? 2048 then [byte (192 + u / 64); byte (128 + u mod 64)]
   else if u <? 65536 then
     [byte (224 + u / 4096); byte (128 + (u / 64) mod 64); byte (128 + u mod 64)]
   else
     [byte (240 + u / 262144); byte (128 + (u / 4096) mod 64);
      byte (128 + (u / 64) mod 64); byte (128 + u mod 64)])%N.

(** The body of a string, after its opening quote. *)
Fixpoint scanstring (fuel : nat) (s : str) : option (str * str) :=
  match fuel with
  | O => None
  | S fuel' =>
      match s with
      | [] => None
      | c :: r =>
          if Ascii.eqb c dq then Some ([], r)
          else if Ascii.eqb c backslash then
            match r with
            | [] => None
            | e :: r' =>
                let simple (x : ascii) :=
                  option_map (fun p => (x :: fst p, snd p)) (scanstring fuel' r') in
                if Ascii.eqb e dq then simple dq
                else if Ascii.eqb e backslash then simple backslash
                else if Ascii.eqb e "/" then simple "/"
                else if Ascii.eqb e "b" then simple "008"
                else if Ascii.eqb e "f" then simple "012"
                else if Ascii.eqb e "n" then simple LF
                else if Ascii.eqb e "r" then simple CR
                else if Ascii.eqb e "t" then simple TAB
                else if Ascii.eqb e "u" then
                  match hex4 r' with
                  | None => None
                  | Some (uni, r2) =>
                      let single :=
                        option_map (fun p => (utf8 uni ++ fst p, snd p))
                                   (scanstring fuel' r2) in
                      if ((55296 <=? uni) && (uni <=? 56319))%N then
                        match r2 with
                        | b1 :: u1 :: r3 =>
                            if Ascii.eqb b1 backslash && Ascii.eqb u1 "u" then
                              match hex4 r3 with
                              | Some (uni2, r4) =>
                                  if ((56320 <=? uni2) && (uni2 <=? 57343))%N then
                                    option_map
                                      (fun p =>
                                         (utf8 (65536 + (uni - 55296) * 1024
                                                + (uni2 - 56320))%N ++ fst p,
                                          snd p))
                                      (scanstring fuel' r4)
                                  else single
                              | None => single
                              end
                            else single
                        | _ => single
                        end
                      else single
                  end
                else None
            end
          else if (code c <? 32)%nat then None
          else option_map (fun p => (c :: fst p, snd p)) (scanstring fuel' r)
      end
  end.

(** [NUMBER_RE]: an integer part without a leading zero, then an optional
    fraction (group 2) and an optional exponent (group 3). *)
Definition NUMBER_RE : regex :=
  Group 1 (Opt (Chr "-") ;;
           Alt (Chr "0") (Cls (between 49 57) ;; Star (Cls isdigit))) ;;
  Opt (Group 2 (Chr "." ;; Plus (Cls isdigit))) ;;
  Opt (Group 3 (OneOf (lit "eE") ;; Opt (OneOf (lit "-+")) ;; Plus (Cls isdigit))).

Definition scan_number (s : str) : option (value * str) :=
  match re_match NUMBER_RE s with
  | None => None
  | Some (rest, m) =>
      match group m 2 ++ group m 3 with
      | [] => option_map (fun z => (VInt z, rest)) (int_of_str (group m 1))
      | tail =>
          option_map (fun f => (VFloat f, rest)) (float_of_str (group m 1 ++ tail))
      end
  end.

Definition scan_atom (s : str) : option (value * str) :=
  match strip_prefix (lit "null") s with
  | Some r => Some (VNone, r)
  | None =>
  match strip_prefix (lit "true") s with
  | Some r => Some (VBool true, r)
  | None =>
  match strip_prefix (lit "false") s with
  | Some r => Some (VBool false, r)
  | None =>
  match scan_number s with
  | Some m => Some m
  | None =>
  match strip_prefix (lit "NaN") s with
  | Some r => Some (VFloat FNaN, r)
  | None =>
  match strip_prefix (lit "Infinity") s with
  | Some r => Some (VFloat (FInf false), r)
  | None =>
  match strip_prefix (lit "-Infinity") s with
  | Some r => Some (VFloat (FInf true), r)
  | None => None
  end end end end end end end.

(** [scan_once], with the loops of [JSONObject] and [JSONArray]. *)
Fixpoint scan_once (fuel : nat) (s : str) {struct fuel} : option (value * str) :=
  match fuel with
  | O => None
  | S fuel' =>
      let members :=
        fix members (n : nat) (d : dict) (s : str) {struct n}
          : option (value * str) :=
          match n with
          | O => None
          | S n' =>
              match s with
              | q :: body =>
                  if Ascii.eqb q dq then
                    match scanstring (S (List.length body)) body with
                    | None => None
                    | Some (key, r1) =>
                        match skip_ws r1 with
                        | colon :: r2 =>
                            if Ascii.eqb colon ":" then
                              match scan_once fuel' (skip_ws r2) with
                              | None => None
                              | Some (v, r3) =>
                                  let d := dict_set d key v in
                                  match skip_ws r3 with
                                  | x :: r4 =>
                                      if Ascii.eqb x "}" then Some (VDict d, r4)
                                      else if Ascii.eqb x ","
                                      then members n' d (skip_ws r4)
                                      else None
                                  | [] => None
                                  end
                              end
                            else None
                        | [] => None
                        end
                    end
                  else None
              | [] => None
              end
          end in
      let elements :=
        fix elements (n : nat) (l : list value) (s : str) {struct n}
          : option (value * str) :=
          match n with
          | O => None
          | S n' =>
              match scan_once fuel' s with
              | None => None
              | Some (v, r1) =>
                  let l := l ++ [v] in
                  match skip_ws r1 with
                  | x :: r2 =>
                      if Ascii.eqb x "]" then Some (VList l, r2)
                      else if Ascii.eqb x "," then elements n' l (skip_ws r2)
                      else None
                  | [] => None
                  end
              end
          end in
      match s with
      | [] => None
      | c :: r =>
          if Ascii.eqb c dq then
            option_map (fun p => (VStr (fst p), snd p))
                       (scanstring (S (List.length r)) r)
          else if Ascii.eqb c "{" then
            match skip_ws r with
            | x :: r' =>
                if Ascii.eqb x "}" then Some (VDict [], r')
                else members (List.length r) [] (x :: r')
            | [] => None
            end
          else if Ascii.eqb c "[" then
            match skip_ws r with
            | x :: r' =>
                if Ascii.eqb x "]" then Some (VList [], r')
                else elements (List.length r) [] (x :: r')
            | [] => None
            end
          else scan_atom s
      end
  end.

Definition json_decode (s : str) : option value :=
  match scan_once (S (List.length s)) (skip_ws s) with
  | Some (v, rest) =>
      match skip_ws rest with
      | [] => Some v
      | _ :: _ => None
      end
  | None => None
  end.

Definition json_loads (s : str) : outcome value :=
  match json_decode s with
  | Some v => Ret v
  | None => Raise (JSONDecodeError (lit "Expecting value"))
  end.

(** ** The parser *)

Definition no_match : exn := ValueError (lit "No matching JSON object found.").

(** The [for] loop of [parse] over the candidates. *)
Fixpoint parse_candidates (schema : Schema) (json_candidates : list str)
  : outcome value :=
  match json_candidates with
  | [] => Raise no_match
  | candidate :: rest =>
      let fixed_json := fix_json candidate in
      match fixed_json with
      | [] => parse_candidates schema rest
      | _ :: _ =>
          let attempt :=
            match json_loads fixed_json with
            | Ret loaded => fst (validated schema loaded)
            | Raise e => Raise e
            end in
          match attempt with
          | Ret VNone => parse_candidates schema rest
          | Ret validated_data => Ret validated_data
          | Raise (JSONDecodeError _) => parse_candidates schema rest
          | Raise e => Raise e
          end
      end
  end.

Definition parse (schema : Schema) (text : str) : outcome value :=
  parse_candidates schema (extract_json_candidates text).

(** ** The bracket-closure pass, as the specification words it

    The pass copies its input, except that outside a quoted region a
    closing bracket whose opener is not the innermost open one is left
    out; at the end the open brackets are closed, innermost first.
    [open] lists the open brackets, innermost first; [quote] is the quote
    of the region at hand, if any; [escaped] says that a backslash came
    just before. *)

Definition closer (opening : ascii) : ascii :=
  if Ascii.eqb opening "{" then "}" else "]".

Definition is_opener (c : ascii) : bool := Ascii.eqb c "{" || Ascii.eqb c "[".
Definition is_closer (c : ascii) : bool := Ascii.eqb c "}" || Ascii.eqb c "]".
Definition is_quote (c : ascii) : bool := Ascii.eqb c dq || Ascii.eqb c sq.

Fixpoint closure_spec (open : list ascii) (quote : option ascii)
  (escaped : bool) (s : str) : str :=
  match s with
  | [] => map closer open
  | c :: s' =>
      if escaped then c :: closure_spec open quote false s'
      else if Ascii.eqb c backslash then c :: closure_spec open quote true s'
      else if is_quote c then
        match quote with
        | None => c :: closure_spec open (Some c) false s'
        | Some q =>
            c :: closure_spec open (if Ascii.eqb q c then None else Some q) false s'
        end
      else
        match quote with
        | Some _ => c :: closure_spec open quote false s'
        | None =>
            if is_opener c then c :: closure_spec (c :: open) None false s'
            else if is_closer c then
              match open with
              | innermost :: outer =>
                  if Ascii.eqb (closer innermost) c
                  then c :: closure_spec outer None false s'
                  else closure_spec open None false s'
              | [] => closure_spec open None false s'
              end
            else c :: closure_spec open None false s'
        end
  end.

(** ** Schemas and texts of the test suite *)

Definition string_schema : Schema := mkSchema (lit "string") [] None [].
Definition number_schema : Schema := mkSchema (lit "number") [] None [].
Definition emails_schema : Schema :=
  mkSchema (lit "array") [] (Some string_schema) [].

Definition person_properties : list (str * Schema) :=
  [(lit "name", string_schema); (lit "age", number_schema);
   (lit "emails", emails_schema)].

(** [parser_with_schema] and [parser_without_schema] of [test.py]. *)
Definition schema_with_required : Schema :=
  mkSchema (lit "object") person_properties None [lit "name"; lit "age"].
Definition schema_without_required : Schema :=
  mkSchema (lit "object") person_properties None [].

(** The input of [test_proper_json]. *)
Definition proper_json : str :=
  txt "{`name`: `John Doe`, `age`: 30, `emails`: [`john@example.com`]}".

(** The input of [test_json_with_surrounding_text], in its three parts. *)
Definition jane_prefix : str := lit "Here is the data: ".
Definition jane_payload : str :=
  txt "{`name`: `Jane`, `age`:25, `emails`:[`jane@example.com`]}".
Definition jane_suffix : str := lit " Thanks!".

(** The input of [test_missing_quotes]. *)
Definition missing_quotes : str :=
  txt "{`name`: `John Doe`, `age`: 22, 'emails': [`john.doe@example.com`], `test`: Hello World}".

(** What [test_missing_quotes] expects. *)
Definition missing_quotes_expected : value :=
  VDict [(lit "name", VStr (lit "John Doe")); (lit "age", VInt 22);
         (lit "emails", VList [VStr (lit "john.doe@example.com")]);
         (lit "test", VStr (lit "Hello World"))].

Definition age_schema : Schema :=
  mkSchema (lit "object") [(lit "age", number_schema)] None [].

Definition is_str (v : value) : bool :=
  match v with
  | VStr _ => true
  | _ => false
  end.


Definition nonempty (s : str) : bool := negb (Nat.eqb (List.length s) 0).

(** No brace and no square bracket. *)
Definition bracket_free (s : str) : bool :=
  forallb (fun c => negb (is_opener c || is_closer c)) s.

Definition scalar_types : list str :=
  [lit "string"; lit "number"; lit "boolean"; lit "null"].

(** ** Matching before a suffix of prose

    What a match leaves when the text goes on with [B], set against what
    it leaves without. *)

Definition with_suffix (B : str) (o : option str) : option str :=
  option_map (fun r => r ++ B) o.

(** Two continuations that agree, up to the suffix [B], on every input
    shorter than [bound]. *)
Definition continues_alike (B : str) (bound : nat)
  (k k' : str -> option str) : Prop :=
  forall r, List.length r < bound -> k' (r ++ B) = with_suffix B (k r).

Definition items_suffix_stable (B s : str) : Prop :=
  forall (d d' : nat) (op cl : ascii) (n n' : nat) (k k' : str -> option str),
    is_closer cl = true ->
    List.length s <= d -> List.length (s ++ B) <= d' ->
    List.length s <= n -> List.length (s ++ B) <= n' ->
    continues_alike B (List.length s) k k' ->
    items_star (brace_bracket d') op cl n' (s ++ B) (expect cl k')
    = with_suffix B (items_star (brace_bracket d) op cl n s (expect cl k)).

Definition call_suffix_stable (B s : str) : Prop :=
  forall (d d' : nat) (k k' : str -> option str),
    List.length s <= d -> List.length (s ++ B) <= d' ->
    continues_alike B (List.length s) k k' ->
    brace_bracket d' (s ++ B) k' = with_suffix B (brace_bracket d s k).



(** ** Well-formed Schemas and the errors of coercion *)

Fixpoint distinct (keys : list str) : bool :=
  match keys with
  | [] => true
  | key :: keys' => negb (existsb (str_eqb key) keys') && distinct keys'
  end.

(** The keys of [properties] are distinct at every level, as the keys of
    a Python [dict] are. *)
Fixpoint distinct_keys (s : Schema) : bool :=
  match s with
  | mkSchema _ properties items _ =>
      distinct (map fst properties)
      && forallb (fun p => distinct_keys (snd p)) properties
      && match items with
         | Some items_schema => distinct_keys items_schema
         | None => true
         end
  end.

(** The [ValueError] of [int(s)] or of [float(s)]. *)
Definition coercion_error (e : exn) : Prop :=
  exists s : str,
    e = ValueError (lit "invalid literal for int() with base 10: " ++ repr s)
    \/ e = ValueError (lit "could not convert string to float: " ++ repr s).

(** Validating again what [validated] gave, or what it left of its
    argument, gives the same and changes nothing. *)
Definition settled (s : Schema) : Prop :=
  forall (data v data' : value),
    validated s data = (Ret v, data') ->
    v <> VNone ->
    validated s v = (Ret v, v) /\ validated s data' = (Ret v, data').

Definition recognised_types : list str :=
  [lit "object"; lit "array"; lit "string"; lit "number"; lit "boolean";
   lit "null"].



Ltac kept_case :=
  repeat split; try reflexivity; try assumption;
  try (left; reflexivity); try (right; repeat split; reflexivity);
  try apply Forall_nil.



(** * Properties *)

(** ** Strings and mappings *)

Lemma str_eqb_refl (a : str) : str_eqb a a = true.
Proof.
  induction a as [|x a IH]; simpl; [reflexivity|].
  now rewrite Ascii.eqb_refl.
Qed.

Lemma str_eqb_eq (a b : str) : str_eqb a b = true <-> a = b.
Proof.
  split.
  - revert b; induction a as [|x a IH]; intros [|y b] H; simpl in H;
      try discriminate; [reflexivity|].
    apply andb_true_iff in H as [Hxy Hab].
    apply Ascii.eqb_eq in Hxy. f_equal; auto.
  - intros ->. apply str_eqb_refl.
Qed.

Lemma str_eqb_neq (a b : str) : a <> b -> str_eqb a b = false.
Proof.
  intros Hne. destruct (str_eqb a b) eqn:E; [|reflexivity].
  apply str_eqb_eq in E. contradiction.
Qed.

Lemma dict_mem_set (d : dict) (key k : str) (v : value) :
  dict_mem key d = true -> dict_mem key (dict_set d k v) = true.
Proof.
  unfold dict_mem.
  induction d as [|[k0 x] d IH]; simpl; [discriminate|].
  intros H. destruct (str_eqb k0 k) eqn:E; simpl.
  - exact H.
  - apply orb_true_iff in H as [H|H].
    + now rewrite H.
    + rewrite (IH H). apply orb_true_r.
Qed.

Lemma dict_get_set_other (d : dict) (key k : str) (v : value) :
  k <> key -> dict_get (dict_set d k v) key = dict_get d key.
Proof.
  intros Hne.
  induction d as [|[k0 x] d IH]; simpl.
  - now rewrite (str_eqb_neq _ _ Hne).
  - destruct (str_eqb k0 k) eqn:E; simpl.
    + apply str_eqb_eq in E; subst k0.
      now rewrite (str_eqb_neq _ _ Hne).
    + destruct (str_eqb k0 key); [reflexivity|exact IH].
Qed.

(** ** The basic types *)

Lemma validated_basic_not_str (t : str) (v : value) :
  is_str v = false -> validated_basic t v = Ret v.
Proof. destruct v; simpl; intros H; try reflexivity; discriminate. Qed.

Lemma scalar_type_cases (t : str) :
  In t scalar_types ->
  str_eqb t (lit "object") = false /\ str_eqb t (lit "array") = false.
Proof.
  unfold scalar_types; simpl.
  intros [<-|[<-|[<-|[<-|[]]]]]; split; reflexivity.
Qed.

(** C1.  A ['number'] Schema given the string [abc] does not reject it:
    [int] raises [ValueError], which the handler for [TypeError] lets
    through.  The exception leaves [parse] as well, where only
    [JSONDecodeError] is caught, so [parse] surfaces an error that is not
    the no-match error, and the candidate that follows is never tried. *)
Theorem number_coercion_failure_escapes :
  let err := ValueError (lit "invalid literal for int() with base 10: 'abc'") in
  fst (validated number_schema (VStr (lit "abc"))) = Raise err
  /\ parse age_schema (txt "{`age`: `abc`}") = Raise err
  /\ parse age_schema (txt "{`age`: `abc`} {`age`: 5}") = Raise err
  /\ err <> no_match.
Proof.
  cbv zeta. repeat split; try (vm_compute; reflexivity).
  intros H. discriminate H.
Qed.

(** C2.  A ['number'] Schema accepts both booleans and returns them as
    they are: [bool] is a subclass of [int], so the check against
    [(int, float)] holds.  Through [parse], a raw [true] is accepted for a
    ['number'] field. *)
Theorem number_schema_accepts_booleans :
  (forall (properties : list (str * Schema)) (items : option Schema)
          (required : list str) (b : bool),
      validated (mkSchema (lit "number") properties items required) (VBool b)
      = (Ret (VBool b), VBool b))
  /\ parse age_schema (txt "{`age`: true}")
     = Ret (VDict [(lit "age", VBool true)]).
Proof.
  split.
  - intros properties items required b. reflexivity.
  - vm_compute. reflexivity.
Qed.

(** C4.  For the four basic types, a value that is not a string is
    returned as it is, whatever its kind: nothing is rejected.  An integer
    given to a ['string'] Schema comes back. *)
Theorem basic_schema_returns_any_non_string :
  forall (t : str) (properties : list (str * Schema)) (items : option Schema)
         (required : list str) (v : value),
    In t scalar_types ->
    is_str v = false ->
    validated (mkSchema t properties items required) v = (Ret v, v).
Proof.
  intros t properties items required v Ht Hv.
  destruct (scalar_type_cases t Ht) as [Ho Ha].
  cbn [validated]. rewrite Ho, Ha.
  now rewrite validated_basic_not_str.
Qed.

Lemma basic_schema_returns_any_non_string_witness :
  validated string_schema (VInt 5) = (Ret (VInt 5), VInt 5).
Proof.
  apply (basic_schema_returns_any_non_string (lit "string") [] None [] (VInt 5)).
  - simpl. left. reflexivity.
  - reflexivity.
Defined.

(** ** The array branch *)

Lemma validate_items_strings (properties : list (str * Schema))
  (items : option Schema) (required : list str) (l : list str)
  (done : list value) :
  validate_items
    (validated (mkSchema (lit "string") properties items required))
    done (map VStr l)
  = if forallb nonempty l
    then (Ret (VList (done ++ map VStr l)), done ++ map VStr l)
    else (Ret VNone, done ++ map VStr l).
Proof.
  revert done. induction l as [|s l IH]; intros done; simpl.
  - now rewrite app_nil_r.
  - unfold nonempty at 1. destruct s as [|c s]; simpl.
    + reflexivity.
    + rewrite IH. rewrite <- app_assoc. reflexivity.
Qed.

(** C6.  An array Schema whose items are ['string'] Schemas returns a
    sequence of strings unchanged when none of them is empty, and rejects
    it as soon as one is the empty string: the items are tested for
    truth, not against [None] as the object branch does. *)
Theorem array_of_strings_rejects_empty_string :
  forall (properties : list (str * Schema)) (items : option Schema)
         (required : list str) (l : list str),
    validated
      (mkSchema (lit "array") [] (Some (mkSchema (lit "string") properties items required)) [])
      (VList (map VStr l))
    = (if forallb nonempty l then Ret (VList (map VStr l)) else Ret VNone,
       VList (map VStr l)).
Proof.
  intros properties items required l.
  change (validated _ (VList (map VStr l)))
    with (let (r, l') :=
            validate_items
              (validated (mkSchema (lit "string") properties items required))
              [] (map VStr l) in (r, VList l')).
  rewrite validate_items_strings. simpl.
  destruct (forallb nonempty l); reflexivity.
Qed.

(** C3.  The key-quoting pass leaves a key in single quotes as it is: the
    identifier of its pattern cannot hold a quote, so the branch for
    single quotes is never taken.  The input of [test_missing_quotes]
    then reaches the decoder with ['emails'] in single quotes, fails to
    decode, and [parse] raises no-match where the test expects the
    mapping. *)
Theorem single_quoted_key_not_requoted :
  fix_keys (txt "{'emails': 1}") = txt "{'emails': 1}"
  /\ fix_keys missing_quotes = missing_quotes
  /\ fix_json missing_quotes
     = txt "{`name`: `John Doe`, `age`: 22, 'emails': [`john.doe@example.com`], `test`: `Hello World`}"
  /\ parse schema_with_required missing_quotes = Raise no_match
  /\ parse schema_with_required missing_quotes <> Ret missing_quotes_expected.
Proof.
  repeat split; try (vm_compute; reflexivity).
  intros H. vm_compute in H. discriminate H.
Qed.

(** ** The object branch *)

Section ObjectBranch.

Variable f : Schema -> value -> outcome value * value.

(** The loop over the properties only ever returns the mapping it was
    given, with some of its entries overwritten: no key is lost. *)
Lemma validate_properties_keeps_keys (ps : list (str * Schema)) :
  forall (d : dict) (v : value),
    fst (validate_properties f ps d) = Ret v ->
    v <> VNone ->
    exists d', v = VDict d'
               /\ forall key, dict_mem key d = true -> dict_mem key d' = true.
Proof.
  induction ps as [|[key sub_schema] ps IH]; intros d v Hret Hv; simpl in Hret.
  - injection Hret as <-. exists d. split; [reflexivity|auto].
  - destruct (dict_get d key) as [x|]; [|now apply IH].
    destruct (f sub_schema x) as [[w|e] x']; [|discriminate].
    destruct w; simpl in Hret;
      try (injection Hret as <-; contradiction);
      (destruct (IH _ _ Hret Hv) as (d' & -> & Hkeys);
       exists d'; split; [reflexivity|];
       intros k Hk; apply Hkeys; now apply dict_mem_set).
Qed.

Lemma filter_nil_all {A : Type} (p : A -> bool) (l : list A) :
  filter p l = [] -> forall x, In x l -> p x = false.
Proof.
  induction l as [|a l IH]; simpl; intros H x Hin; [contradiction|].
  destruct (p a) eqn:E; [discriminate|].
  destruct Hin as [<-|Hin]; auto.
Qed.

Lemma validate_mapping_required (properties : list (str * Schema))
  (required : list str) (d : dict) (v : value) :
  required <> [] ->
  fst (validate_mapping f properties required d) = Ret v ->
  v <> VNone ->
  exists d', v = VDict d'
             /\ forall key, In key required -> dict_mem key d' = true.
Proof.
  intros Hreq Hret Hv. unfold validate_mapping in Hret.
  destruct required as [|r0 required]; [contradiction|].
  destruct (filter _ (r0 :: required)) eqn:Hmissing.
  - destruct (validate_properties_keeps_keys _ _ _ Hret Hv) as (d' & -> & Hkeys).
    exists d'. split; [reflexivity|].
    intros key Hin. apply Hkeys.
    pose proof (filter_nil_all _ _ Hmissing key Hin) as Hk. simpl in Hk.
    now apply negb_false_iff in Hk.
  - simpl in Hret. injection Hret as <-. contradiction.
Qed.

Lemma validate_mapping_missing (properties : list (str * Schema))
  (required : list str) (d : dict) (key : str) :
  In key required -> dict_mem key d = false ->
  validate_mapping f properties required d = (Ret VNone, d).
Proof.
  intros Hin Hmem. unfold validate_mapping.
  destruct required as [|r0 required]; [contradiction|].
  destruct (filter _ (r0 :: required)) eqn:Hmissing; [|reflexivity].
  pose proof (filter_nil_all _ _ Hmissing key Hin) as Hk. simpl in Hk.
  rewrite Hmem in Hk. discriminate.
Qed.


End ObjectBranch.

(** ** What [validated] can raise *)

Lemma Schema_induction (P : Schema -> Prop) :
  (forall (t : str) (ps : list (str * Schema)) (its : option Schema)
          (req : list str),
      Forall (fun p => P (snd p)) ps ->
      (forall i, its = Some i -> P i) ->
      P (mkSchema t ps its req)) ->
  forall s, P s.
Proof.
  intros H. fix IH 1. intros [t ps its req]. apply H.
  - induction ps as [|[k sub] ps IHps]; constructor; [apply IH|exact IHps].
  - destruct its as [i|]; intros j Hj; [|discriminate].
    injection Hj as <-. apply IH.
Qed.





(** ** The loop of [parse] *)

Lemma parse_candidates_returns (schema : Schema) (candidates : list str)
  (v : value) :
  parse_candidates schema candidates = Ret v ->
  v <> VNone /\ exists loaded, fst (validated schema loaded) = Ret v.
Proof.
  induction candidates as [|candidate rest IH]; simpl; [discriminate|].
  destruct (fix_json candidate) as [|c fixed]; [exact IH|].
  destruct (json_loads (c :: fixed)) as [loaded|e].
  - destruct (fst (validated schema loaded)) as [w|e] eqn:Hval.
    + destruct w; try exact IH;
        (intros H; injection H as <-; split; [discriminate|eauto]).
    + destruct e; try discriminate. exact IH.
  - destruct e; try discriminate. exact IH.
Qed.

(** C7.  With an ['object'] Schema whose [required] list is not empty,
    whatever [parse] returns is a mapping that has every required key,
    and [validated] rejects a mapping that lacks one of them. *)
Theorem required_fields_enforced :
  forall (properties : list (str * Schema)) (items : option Schema)
         (required : list str),
    required <> [] ->
    let schema := mkSchema (lit "object") properties items required in
    (forall (text : str) (v : value),
        parse schema text = Ret v ->
        exists d, v = VDict d
                  /\ forall key, In key required -> dict_mem key d = true)
    /\ (forall (d : dict) (key : str),
           In key required -> dict_mem key d = false ->
           validated schema (VDict d) = (Ret VNone, VDict d)).
Proof.
  intros properties items required Hreq schema. split.
  - intros text v Hparse.
    apply parse_candidates_returns in Hparse as [Hv [loaded Hval]].
    unfold schema in Hval. cbn [validated] in Hval.
    change (str_eqb (lit "object") (lit "object")) with true in Hval.
    cbv iota in Hval.
    destruct loaded as [| | | | |l|d]; try (injection Hval as <-; contradiction).
    + destruct l as [|x rest]; [injection Hval as <-; contradiction|].
      destruct x; try (injection Hval as <-; contradiction).
      destruct (validate_mapping validated properties required d) as [r d'] eqn:E.
      simpl in Hval. subst r.
      apply (validate_mapping_required validated properties required d v Hreq);
        [now rewrite E|assumption].
    + destruct (validate_mapping validated properties required d) as [r d'] eqn:E.
      simpl in Hval. subst r.
      apply (validate_mapping_required validated properties required d v Hreq);
        [now rewrite E|assumption].
  - intros d key Hin Hmem. unfold schema. cbn [validated].
    change (str_eqb (lit "object") (lit "object")) with true. cbv iota.
    now rewrite (validate_mapping_missing validated properties required d key).
Qed.

Lemma required_fields_enforced_witness :
  (exists d, parse schema_with_required proper_json = Ret (VDict d)
             /\ forall key, In key [lit "name"; lit "age"] -> dict_mem key d = true)
  /\ validated schema_with_required (VDict [(lit "name", VStr (lit "Test"))])
     = (Ret VNone, VDict [(lit "name", VStr (lit "Test"))]).
Proof.
  assert (Hreq : [lit "name"; lit "age"] <> @nil str) by discriminate.
  destruct (required_fields_enforced person_properties None
              [lit "name"; lit "age"] Hreq) as [Hparse Hval].
  split.
  - assert (Hrun : parse schema_with_required proper_json
                   = Ret (VDict [(lit "name", VStr (lit "John Doe"));
                                 (lit "age", VInt 30);
                                 (lit "emails", VList [VStr (lit "john@example.com")])]))
      by (vm_compute; reflexivity).
    destruct (Hparse proper_json _ Hrun) as (d & Hd & Hkeys).
    exists d. split; [now rewrite Hrun, Hd|exact Hkeys].
  - apply (Hval _ (lit "age")).
    + simpl. right. left. reflexivity.
    + vm_compute. reflexivity.
Defined.



(** ** The bracket-closure pass *)

Lemma close_unclosed_openers (open : list ascii) (res : list ascii) :
  Forall (fun c => is_opener c = true) open ->
  close_unclosed (List.length (rev open)) (rev open) res = res ++ map closer open.
Proof.
  revert res. induction open as [|top open IH]; intros res Hop; simpl.
  - now rewrite app_nil_r.
  - inversion Hop as [|? ? Htop Hop']; subst.
    rewrite length_app, Nat.add_comm. simpl.
    rewrite rev_unit, removelast_last, IH by assumption.
    rewrite <- app_assoc. simpl. f_equal. f_equal.
    unfold is_opener in Htop. unfold opening_brackets, closer.
    destruct (Ascii.eqb top "{"); [reflexivity|].
    simpl in Htop. now rewrite Htop.
Qed.

Lemma opener_cases (c : ascii) :
  is_opener c = true -> c = "{" \/ c = "[".
Proof.
  unfold is_opener. intros H. apply orb_true_iff in H as [H|H];
    apply Ascii.eqb_eq in H; auto.
Qed.

(** One round of the loop against one character of the specification:
    the state after the round, put before the rest of the input, reads as
    the state before it put before the character and the rest. *)
Lemma closure_step_spec (open res : list ascii) (q : option ascii)
  (esc : bool) (c : ascii) (rest : str) :
  Forall (fun c => is_opener c = true) open ->
  exists open' res' q' esc',
    closure_step (mkState (rev open) res q esc) c = mkState (rev open') res' q' esc'
    /\ Forall (fun c => is_opener c = true) open'
    /\ res' ++ closure_spec open' q' esc' rest
       = res ++ closure_spec open q esc (c :: rest).
Proof.
  intros Hop.
  unfold closure_step, set_stack, set_result, set_in_string, set_escape.
  cbn [stack result in_string escape closure_spec].
  destruct esc.
  { exists open, (res ++ [c]), q, false.
    now rewrite <- app_assoc. }
  destruct (Ascii.eqb c backslash).
  { exists open, (res ++ [c]), q, true.
    now rewrite <- app_assoc. }
  unfold is_quote. destruct (Ascii.eqb c dq || Ascii.eqb c sq).
  { destruct q as [q|]; [destruct (Ascii.eqb q c)|];
      eexists open, (res ++ [c]), _, false;
      (split; [reflexivity|split; [assumption|now rewrite <- app_assoc]]). }
  destruct q as [q|].
  { exists open, (res ++ [c]), (Some q), false.
    now rewrite <- app_assoc. }
  unfold opening_brackets, closing_brackets, is_opener, is_closer.
  destruct (Ascii.eqb c "{") eqn:E1.
  { exists (c :: open), (res ++ [c]), None, false. simpl.
    repeat split; [constructor; [unfold is_opener; now rewrite E1|assumption]|].
    now rewrite <- app_assoc. }
  destruct (Ascii.eqb c "[") eqn:E2.
  { exists (c :: open), (res ++ [c]), None, false. simpl.
    repeat split;
      [constructor; [unfold is_opener; now rewrite E2, orb_true_r|assumption]|].
    now rewrite <- app_assoc. }
  cbn [orb].
  destruct (Ascii.eqb c "}") eqn:E3.
  { apply Ascii.eqb_eq in E3. subst c. rewrite rev_involutive.
    destruct open as [|top outer].
    - exists [], res, None, false. now rewrite removelast_last.
    - inversion Hop as [|? ? Htop Hout]; subst.
      destruct (opener_cases _ Htop) as [-> | ->]; cbn.
      + exists outer, (res ++ ["}"]), None, false.
        rewrite removelast_last. now rewrite <- app_assoc.
      + exists ("[" :: outer), res, None, false.
        rewrite removelast_last. repeat split; assumption. }
  destruct (Ascii.eqb c "]") eqn:E4.
  { apply Ascii.eqb_eq in E4. subst c. rewrite rev_involutive.
    destruct open as [|top outer].
    - exists [], res, None, false. now rewrite removelast_last.
    - inversion Hop as [|? ? Htop Hout]; subst.
      destruct (opener_cases _ Htop) as [-> | ->]; cbn.
      + exists ("{" :: outer), res, None, false.
        rewrite removelast_last. repeat split; assumption.
      + exists outer, (res ++ ["]"]), None, false.
        rewrite removelast_last. now rewrite <- app_assoc. }
  exists open, (res ++ [c]), None, false.
  now rewrite <- app_assoc.
Qed.

Lemma closure_loop_spec (s : str) :
  forall (open res : list ascii) (q : option ascii) (esc : bool),
    Forall (fun c => is_opener c = true) open ->
    let st := fold_left closure_step s (mkState (rev open) res q esc) in
    close_unclosed (List.length (stack st)) (stack st) (result st)
    = res ++ closure_spec open q esc s.
Proof.
  induction s as [|c s IH]; intros open res q esc Hop.
  - simpl. now apply close_unclosed_openers.
  - destruct (closure_step_spec open res q esc c s Hop)
      as (open' & res' & q' & esc' & Hstep & Hop' & Hout).
    cbn [fold_left]. rewrite Hstep, <- Hout.
    now apply IH.
Qed.

(** C8.  The bracket-closure pass of the code does what the
    specification says, on every input: it copies each character, leaves
    out a closing bracket that meets no matching innermost opener outside
    the quoted regions, and closes what is still open, innermost
    first. *)
Theorem ensure_ending_brackets_spec :
  forall json_str : str,
    ensure_ending_brackets json_str = closure_spec [] None false json_str.
Proof.
  intros json_str. unfold ensure_ending_brackets.
  apply (closure_loop_spec json_str [] [] None false). constructor.
Qed.

(** ** Candidate extraction under prose *)

Lemma bracket_free_cons (c : ascii) (s : str) :
  bracket_free (c :: s) = true ->
  is_opener c = false /\ is_closer c = false /\ bracket_free s = true.
Proof.
  unfold bracket_free. simpl. intros H.
  apply andb_true_iff in H as [Hc Hs].
  apply negb_true_iff, orb_false_iff in Hc as [Ho Hc]. auto.
Qed.

Lemma brace_bracket_nil (d : nat) (k : str -> option str) :
  brace_bracket d [] k = None.
Proof. destruct d; reflexivity. Qed.

Lemma brace_bracket_non_opener (d : nat) (c : ascii) (s : str)
  (k : str -> option str) :
  is_opener c = false -> brace_bracket d (c :: s) k = None.
Proof.
  unfold is_opener. intros H. apply orb_false_iff in H as [H1 H2].
  destruct d; simpl; [reflexivity|]. now rewrite H1, H2.
Qed.

Lemma brace_bracket_free (d : nat) (s : str) (k : str -> option str) :
  bracket_free s = true -> brace_bracket d s k = None.
Proof.
  destruct s as [|c s]; intros H.
  - apply brace_bracket_nil.
  - apply brace_bracket_non_opener. now apply bracket_free_cons in H.
Qed.

Lemma expect_free (cl : ascii) (k : str -> option str) (s : str) :
  is_closer cl = true -> bracket_free s = true -> expect cl k s = None.
Proof.
  intros Hcl Hs. destruct s as [|c s]; [reflexivity|].
  apply bracket_free_cons in Hs as (_ & Hc & _). simpl.
  destruct (Ascii.eqb c cl) eqn:E; [|reflexivity].
  apply Ascii.eqb_eq in E. subst c. congruence.
Qed.

(** The equation of one round of the star. *)
Lemma items_star_round (call : str -> (str -> option str) -> option str)
  (op cl : ascii) (n : nat) (s : str) (k : str -> option str) :
  items_star call op cl (S n) s k
  = match
      match s with
      | c :: s' =>
          if negb (Ascii.eqb c op || Ascii.eqb c cl)
          then items_star call op cl n s' k else None
      | [] => None
      end
    with
    | Some m => Some m
    | None =>
        match call s (fun s' => items_star call op cl n s' k) with
        | Some m => Some m
        | None => k s
        end
    end.
Proof. reflexivity. Qed.

(** Inside prose the star finds no closer: it fails. *)
Lemma items_star_free (d : nat) (op cl : ascii) (n : nat) :
  forall (s : str) (k : str -> option str),
    is_closer cl = true -> bracket_free s = true ->
    items_star (brace_bracket d) op cl n s (expect cl k) = None.
Proof.
  induction n as [|n IH]; intros s k Hcl Hs.
  - simpl. now apply expect_free.
  - rewrite items_star_round.
    rewrite (brace_bracket_free d s _ Hs), (expect_free cl k s Hcl Hs).
    destruct s as [|c s]; [reflexivity|].
    apply bracket_free_cons in Hs as (_ & _ & Hs).
    rewrite (IH s k Hcl Hs). now destruct (negb _).
Qed.

Section Suffix.

Variable B : str.
Hypothesis B_free : bracket_free B = true.

Lemma call_from_items (s : str) :
  (forall r, List.length r < List.length s -> items_suffix_stable B r) ->
  call_suffix_stable B s.
Proof.
  intros IS d d' k k' Hd Hd' Hk.
  destruct s as [|c s].
  - simpl. now rewrite brace_bracket_nil, (brace_bracket_free d' B k' B_free).
  - simpl in Hd, Hd'. destruct d as [|d]; [lia|]. destruct d' as [|d']; [lia|].
    cbn [app brace_bracket].
    destruct (Ascii.eqb c "{").
    + apply IS; simpl; try lia; [reflexivity|].
      intros r Hr. apply Hk. simpl. lia.
    + destruct (Ascii.eqb c "["); [|reflexivity].
      apply IS; simpl; try lia; [reflexivity|].
      intros r Hr. apply Hk. simpl. lia.
Qed.

Lemma items_stable_by_length (m : nat) :
  forall s, List.length s <= m -> items_suffix_stable B s.
Proof.
  induction m as [m IHm] using lt_wf_ind.
  intros s Hm d d' op cl n n' k k' Hcl Hd Hd' Hn Hn' Hk.
  destruct s as [|c s].
  - simpl app. rewrite (items_star_free d' op cl n' B k' Hcl B_free).
    destruct n as [|n]; [reflexivity|].
    rewrite items_star_round, brace_bracket_nil. reflexivity.
  - simpl in Hm, Hd, Hd', Hn, Hn'.
    destruct n as [|n]; [lia|]. destruct n' as [|n']; [lia|].
    assert (Hshort : forall r, List.length r <= List.length s ->
                               items_suffix_stable B r).
    { intros r Hr. apply (IHm (List.length s)); lia. }
    rewrite !items_star_round. cbn [app].
    (* the round by the class *)
    assert (Hclass : items_star (brace_bracket d') op cl n' (s ++ B) (expect cl k')
                     = with_suffix B (items_star (brace_bracket d) op cl n s
                                                 (expect cl k))).
    { apply (Hshort s); try lia; [assumption|].
      intros r Hr. apply Hk. simpl. lia. }
    rewrite Hclass.
    (* the round by the call *)
    assert (Hcall : brace_bracket d' (c :: s ++ B)
                      (fun s' => items_star (brace_bracket d') op cl n' s' (expect cl k'))
                    = with_suffix B
                        (brace_bracket d (c :: s)
                           (fun s' => items_star (brace_bracket d) op cl n s' (expect cl k)))).
    { apply (call_from_items (c :: s)); simpl; try lia.
      - intros r Hr. apply Hshort. simpl in Hr. lia.
      - intros r Hr. simpl in Hr.
        apply (Hshort r); try assumption; try (rewrite ?length_app in *; lia).
        intros r' Hr'. apply Hk. simpl. lia. }
    rewrite Hcall.
    (* leaving the star *)
    assert (Hleave : expect cl k' (c :: s ++ B)
                     = with_suffix B (expect cl k (c :: s))).
    { simpl. destruct (Ascii.eqb c cl); [|reflexivity].
      apply Hk. simpl. lia. }
    rewrite Hleave.
    destruct (negb (Ascii.eqb c op || Ascii.eqb c cl)).
    + destruct (items_star (brace_bracket d) op cl n s (expect cl k)); simpl;
        [reflexivity|].
      destruct (brace_bracket d (c :: s) _); reflexivity.
    + destruct (brace_bracket d (c :: s) _); reflexivity.
Qed.

Lemma brace_bracket_match_suffix (s : str) :
  brace_bracket_match (s ++ B) = with_suffix B (brace_bracket_match s).
Proof.
  unfold brace_bracket_match.
  apply (call_from_items s); try lia.
  - intros r Hr. now apply (items_stable_by_length (List.length r)).
  - intros r Hr. reflexivity.
Qed.

Lemma findall_from_free (s : str) :
  bracket_free s = true -> forall skip, findall_from skip s = [].
Proof.
  induction s as [|c s IH]; intros Hs skip; [reflexivity|].
  pose proof Hs as Hs'. apply bracket_free_cons in Hs' as (Ho & _ & Hrest).
  simpl. destruct skip; [|now apply IH].
  unfold brace_bracket_match. rewrite brace_bracket_non_opener by assumption.
  now apply IH.
Qed.

Lemma taken_suffix (s rest : str) :
  taken (s ++ B) (rest ++ B) = taken s rest.
Proof.
  unfold taken. rewrite !length_app, firstn_app.
  replace (List.length s + List.length B - (List.length rest + List.length B))
    with (List.length s - List.length rest) by lia.
  replace (List.length s - List.length rest - List.length s) with 0 by lia.
  simpl. apply app_nil_r.
Qed.

Lemma length_suffix (s rest : str) :
  List.length (s ++ B) - List.length (rest ++ B)
  = List.length s - List.length rest.
Proof. rewrite !length_app. lia. Qed.

Lemma findall_from_start (c : ascii) (s : str) :
  findall_from 0 (c :: s)
  = match brace_bracket_match (c :: s) with
    | Some rest =>
        match List.length (c :: s) - List.length rest with
        | S n => taken (c :: s) rest :: findall_from n s
        | O => findall_from 0 s
        end
    | None => findall_from 0 s
    end.
Proof. reflexivity. Qed.

Lemma findall_from_suffix (s : str) :
  forall skip, findall_from skip (s ++ B) = findall_from skip s.
Proof.
  induction s as [|c s IH]; intros skip.
  - simpl. rewrite findall_from_free by exact B_free. now destruct skip.
  - destruct skip; [|apply IH].
    change ((c :: s) ++ B) with (c :: (s ++ B)).
    rewrite !findall_from_start.
    change (c :: (s ++ B)) with ((c :: s) ++ B).
    rewrite brace_bracket_match_suffix.
    destruct (brace_bracket_match (c :: s)) as [rest|];
      cbn [with_suffix option_map]; [|apply IH].
    rewrite length_suffix, taken_suffix.
    destruct (List.length (c :: s) - List.length rest); now rewrite IH.
Qed.

End Suffix.

Lemma with_suffix_nil (o : option str) : with_suffix [] o = o.
Proof. destruct o as [r|]; simpl; [now rewrite app_nil_r|reflexivity]. Qed.

(** The depth that [brace_bracket_match] allows is enough: a greater one
    gives the same match. *)
Lemma brace_bracket_depth_enough (s : str) (d d' : nat)
  (k : str -> option str) :
  List.length s <= d -> List.length s <= d' ->
  brace_bracket d' s k = brace_bracket d s k.
Proof.
  intros Hd Hd'.
  assert (Hstable : call_suffix_stable [] s).
  { apply call_from_items; [reflexivity|].
    intros r _. now apply (items_stable_by_length [] eq_refl (List.length r)). }
  specialize (Hstable d d' k k). rewrite app_nil_r, with_suffix_nil in Hstable.
  apply Hstable; try assumption.
  intros r _. now rewrite app_nil_r, with_suffix_nil.
Qed.

Lemma findall_from_prefix (A s : str) :
  bracket_free A = true -> findall_from 0 (A ++ s) = findall_from 0 s.
Proof.
  induction A as [|c A IH]; intros HA; [reflexivity|].
  apply bracket_free_cons in HA as (Ho & _ & HA).
  change ((c :: A) ++ s) with (c :: (A ++ s)).
  rewrite findall_from_start. unfold brace_bracket_match.
  rewrite brace_bracket_non_opener by assumption. now apply IH.
Qed.

Lemma findall_in_prose (A P B : str) :
  bracket_free A = true -> bracket_free B = true ->
  BRACE_BRACKET_findall (A ++ P ++ B) = BRACE_BRACKET_findall P.
Proof.
  intros HA HB. unfold BRACE_BRACKET_findall.
  rewrite findall_from_prefix by assumption.
  now apply findall_from_suffix.
Qed.

(** C9, as the code has it.  When the extractor finds a bracket-balanced
    region in the payload, prose without brackets before and after the
    payload changes nothing: [parse] gives the same value, the same
    no-match, or the same escaping error. *)
Theorem prose_tolerance_with_candidates :
  forall (schema : Schema) (A P B : str),
    bracket_free A = true -> bracket_free B = true ->
    BRACE_BRACKET_findall P <> [] ->
    parse schema (A ++ P ++ B) = parse schema P.
Proof.
  intros schema A P B HA HB Hcand.
  unfold parse, extract_json_candidates.
  rewrite (findall_in_prose A P B HA HB).
  destruct (BRACE_BRACKET_findall P); [contradiction|reflexivity].
Qed.

Lemma prose_tolerance_with_candidates_witness :
  parse schema_with_required (jane_prefix ++ jane_payload ++ jane_suffix)
  = parse schema_with_required jane_payload.
Proof.
  apply (prose_tolerance_with_candidates schema_with_required
           jane_prefix jane_payload jane_suffix).
  - vm_compute. reflexivity.
  - vm_compute. reflexivity.
  - vm_compute. discriminate.
Defined.

(** C9, as it is stated, fails: a bare number is a valid JSON payload in
    which the extractor finds no region, so the whole text is the one
    candidate, and the prose before the number makes it undecodable. *)
Lemma prose_tolerance_fails_for_scalar_payload :
  ~ (forall (schema : Schema) (A P B : str) (v : value),
        json_decode P = Some v ->
        bracket_free A = true -> bracket_free B = true ->
        parse schema (A ++ P ++ B) = parse schema P).
Proof.
  intros H.
  specialize (H number_schema (lit "a ") (lit "5") [] (VInt 5)).
  vm_compute in H.
  specialize (H eq_refl eq_refl eq_refl). discriminate H.
Qed.

(** ** Well-formed input *)

Lemma replace_absent (old : ascii) (new : str) (s : str) :
  mem old s = false -> replace old new s = s.
Proof.
  unfold replace, mem. induction s as [|c s IH]; simpl; [reflexivity|].
  intros H. apply orb_false_iff in H as [Hc Hs].
  rewrite Ascii.eqb_sym, Hc. simpl. now rewrite IH.
Qed.

(** The first stage of the escape pass doubles every backslash: a text
    that holds one is not left as it is. *)
Lemma escape_stage_one_identity (s : str) :
  mem backslash s = false -> mem LF s = false ->
  mem CR s = false -> mem TAB s = false ->
  replace TAB [backslash; "t"]
    (replace CR [backslash; "r"]
       (replace LF [backslash; "n"]
          (replace backslash [backslash; backslash] s))) = s.
Proof.
  intros Hb Hn Hr Ht.
  rewrite (replace_absent backslash _ s Hb), (replace_absent LF _ s Hn),
    (replace_absent CR _ s Hr).
  now apply replace_absent.
Qed.




(** * Further properties of the code *)

(** ** [Schema.validated] *)

Lemma dict_get_mem (d : dict) (key : str) :
  dict_mem key d = match dict_get d key with Some _ => true | None => false end.
Proof.
  induction d as [|[k x] d IH]; simpl; [reflexivity|].
  destruct (str_eqb k key); [reflexivity|exact IH].
Qed.

Lemma dict_set_keys (d : dict) (key : str) (x v : value) :
  dict_get d key = Some x -> map fst (dict_set d key v) = map fst d.
Proof.
  induction d as [|[k y] d IH]; simpl; [discriminate|].
  destruct (str_eqb k key); simpl; [reflexivity|].
  intros H. now rewrite IH.
Qed.

Lemma dict_get_set_same (d : dict) (key : str) (x v : value) :
  dict_get d key = Some x -> dict_get (dict_set d key v) key = Some v.
Proof.
  induction d as [|[k y] d IH]; simpl; [discriminate|].
  destruct (str_eqb k key) eqn:E; simpl; rewrite E; [reflexivity|exact IH].
Qed.

Lemma dict_set_same (d : dict) (key : str) (v : value) :
  dict_get d key = Some v -> dict_set d key v = d.
Proof.
  induction d as [|[k y] d IH]; simpl; [discriminate|].
  destruct (str_eqb k key).
  - intros H. injection H as ->. reflexivity.
  - intros H. now rewrite IH.
Qed.

Lemma existsb_str_In (key : str) (keys : list str) :
  existsb (str_eqb key) keys = true <-> In key keys.
Proof.
  rewrite existsb_exists. split.
  - intros (k & Hin & Heq). apply str_eqb_eq in Heq. now subst.
  - intros Hin. exists key. split; [assumption|apply str_eqb_refl].
Qed.

Lemma distinct_NoDup (keys : list str) :
  distinct keys = true -> NoDup keys.
Proof.
  induction keys as [|key keys IH]; simpl; intros H; constructor.
  - apply andb_true_iff in H as [H _]. apply negb_true_iff in H.
    intros Hin. apply existsb_str_In in Hin. congruence.
  - apply andb_true_iff in H as [_ H]. now apply IH.
Qed.

Section PropertyLoop.

Variable f : Schema -> value -> outcome value * value.

(** The loop over the properties hands back the mapping it has worked
    on, with the keys it was given, in their order, and with what it was
    given under every key that [properties] does not name. *)
Lemma validate_properties_frame (ps : list (str * Schema)) :
  forall (d d' : dict) (v : value),
    validate_properties f ps d = (Ret v, d') ->
    v <> VNone ->
    v = VDict d'
    /\ map fst d' = map fst d
    /\ forall key, ~ In key (map fst ps) -> dict_get d' key = dict_get d key.
Proof.
  induction ps as [|[key sub_schema] ps IH]; intros d d' v Hrun Hv; simpl in Hrun.
  - injection Hrun as <- <-. auto.
  - destruct (dict_get d key) as [x|] eqn:Hget.
    + destruct (f sub_schema x) as [[w|e] x']; [|discriminate].
      assert (Hnext : validate_properties f ps (dict_set d key w) = (Ret v, d')).
      { destruct w; try exact Hrun; injection Hrun as <- _; contradiction. }
      destruct (IH _ _ _ Hnext Hv) as (Hd & Hkeys & Hother).
      split; [exact Hd|]. split.
      * rewrite Hkeys. now apply dict_set_keys with (x := x).
      * intros k Hk. simpl in Hk. rewrite Hother by tauto.
        apply dict_get_set_other. tauto.
    + destruct (IH _ _ _ Hrun Hv) as (Hd & Hkeys & Hother).
      split; [exact Hd|]. split; [exact Hkeys|].
      intros k Hk. simpl in Hk. apply Hother. tauto.
Qed.

Lemma validate_mapping_frame (ps : list (str * Schema)) (req : list str)
  (d d' : dict) (v : value) :
  validate_mapping f ps req d = (Ret v, d') ->
  v <> VNone ->
  v = VDict d'
  /\ map fst d' = map fst d
  /\ forall key, ~ In key (map fst ps) -> dict_get d' key = dict_get d key.
Proof.
  unfold validate_mapping. intros Hrun Hv.
  destruct req as [|r0 req].
  - destruct (negb _); [injection Hrun as <- _; contradiction|].
    now apply validate_properties_frame.
  - destruct (filter _ (r0 :: req)); [|injection Hrun as <- _; contradiction].
    now apply validate_properties_frame.
Qed.

End PropertyLoop.

(** X1.  The object branch recurses into the properties only: the mapping
    it returns has the keys of the mapping it was given, in the same
    order, and the same value under every key that [properties] does not
    name. *)
Theorem object_validation_keeps_unknown_keys :
  forall (properties : list (str * Schema)) (items : option Schema)
         (required : list str) (d : dict) (v : value),
    fst (validated (mkSchema (lit "object") properties items required) (VDict d))
    = Ret v ->
    v <> VNone ->
    exists d', v = VDict d'
               /\ map fst d' = map fst d
               /\ forall key, ~ In key (map fst properties) ->
                              dict_get d' key = dict_get d key.
Proof.
  intros properties items required d v Hrun Hv.
  cbn [validated] in Hrun.
  change (str_eqb (lit "object") (lit "object")) with true in Hrun. cbv iota in Hrun.
  destruct (validate_mapping validated properties required d) as [r d'] eqn:E.
  simpl in Hrun. subst r. exists d'.
  now apply (validate_mapping_frame validated properties required d d' v).
Qed.

Lemma object_validation_keeps_unknown_keys_witness :
  exists d',
    fst (validated (mkSchema (lit "object") [(lit "age", number_schema)] None [])
                   (VDict [(lit "id", VStr (lit "7")); (lit "age", VStr (lit "5"))]))
    = Ret (VDict d')
    /\ map fst d' = [lit "id"; lit "age"]
    /\ dict_get d' (lit "id") = Some (VStr (lit "7")).
Proof.
  assert (Hrun : fst (validated
                        (mkSchema (lit "object") [(lit "age", number_schema)] None [])
                        (VDict [(lit "id", VStr (lit "7"));
                                (lit "age", VStr (lit "5"))]))
                 = Ret (VDict [(lit "id", VStr (lit "7")); (lit "age", VInt 5)]))
    by (vm_compute; reflexivity).
  destruct (object_validation_keeps_unknown_keys _ _ _ _ _ Hrun)
    as (d' & Hd & Hkeys & Hother); [discriminate|].
  exists d'. rewrite Hrun, Hd. repeat split; [exact Hkeys|].
  rewrite (Hother (lit "id")); [reflexivity|].
  simpl. intros [H|[]]. discriminate H.
Defined.

(** ** Validating twice *)

Lemma dict_mem_keys (d : dict) (key : str) :
  dict_mem key d = existsb (fun k => str_eqb k key) (map fst d).
Proof.
  unfold dict_mem. induction d as [|[k x] d IH]; simpl; [reflexivity|].
  now rewrite IH.
Qed.

Lemma dict_mem_same_keys (d d' : dict) (key : str) :
  map fst d' = map fst d -> dict_mem key d' = dict_mem key d.
Proof. intros H. now rewrite !dict_mem_keys, H. Qed.

Lemma validate_mapping_same_keys
  (f : Schema -> value -> outcome value * value) (ps : list (str * Schema))
  (req : list str) (d d' : dict) (r : outcome value * dict) :
  map fst d' = map fst d ->
  validate_properties f ps d' = r ->
  (forall v d2, validate_mapping f ps req d = (Ret v, d2) -> v <> VNone ->
                validate_mapping f ps req d' = r).
Proof.
  intros Hkeys Hloop v d2. unfold validate_mapping.
  rewrite (filter_ext (fun key => negb (dict_mem key d'))
                      (fun key => negb (dict_mem key d)))
    by (intros key; now rewrite (dict_mem_same_keys d d' key Hkeys)).
  replace (existsb (fun key => dict_mem key d') (map fst ps))
    with (existsb (fun key => dict_mem key d) (map fst ps)).
  2:{ induction (map fst ps) as [|k ks IH]; simpl; [reflexivity|].
      now rewrite IH, (dict_mem_same_keys d d' k Hkeys). }
  destruct req as [|r0 req].
  - destruct (negb _); [|auto].
    intros H Hv. injection H as <- _. contradiction.
  - destruct (filter _ (r0 :: req)); [auto|].
    intros H Hv. injection H as <- _. contradiction.
Qed.

Lemma validate_properties_settled (ps : list (str * Schema)) :
  NoDup (map fst ps) ->
  Forall (fun p => settled (snd p)) ps ->
  forall (d d' : dict) (v : value),
    validate_properties validated ps d = (Ret v, d') ->
    v <> VNone ->
    validate_properties validated ps d' = (Ret (VDict d'), d').
Proof.
  induction ps as [|[key sub_schema] ps IH]; intros Hnd Hsub d d' v Hrun Hv.
  - reflexivity.
  - simpl in Hnd. inversion Hnd as [|? ? Hnotin Hnd']; subst.
    inversion Hsub as [|? ? Hhead Htail]; subst. simpl in Hhead.
    simpl in Hrun. simpl.
    destruct (dict_get d key) as [x|] eqn:Hget.
    + destruct (validated sub_schema x) as [[w|e] x'] eqn:Hval; [|discriminate].
      assert (Hw : w <> VNone).
      { intros ->. injection Hrun as <- _. contradiction. }
      assert (Hnext : validate_properties validated ps (dict_set d key w)
                      = (Ret v, d')).
      { destruct w; try exact Hrun. contradiction. }
      destruct (validate_properties_frame validated ps _ _ _ Hnext Hv)
        as (_ & _ & Hother).
      rewrite (Hother key Hnotin), (dict_get_set_same d key x w Hget).
      destruct (Hhead x w x' Hval Hw) as [Hagain _]. rewrite Hagain.
      rewrite (dict_set_same d' key w)
        by (now rewrite (Hother key Hnotin), (dict_get_set_same d key x w Hget)).
      specialize (IH Hnd' Htail _ _ _ Hnext Hv).
      destruct w; try exact IH. contradiction.
    + destruct (validate_properties_frame validated ps _ _ _ Hrun Hv)
        as (_ & _ & Hother).
      rewrite (Hother key Hnotin), Hget.
      now apply (IH Hnd' Htail d d' v).
Qed.

Lemma validate_mapping_settled (ps : list (str * Schema)) (req : list str)
  (d d' : dict) (v : value) :
  NoDup (map fst ps) ->
  Forall (fun p => settled (snd p)) ps ->
  validate_mapping validated ps req d = (Ret v, d') ->
  v <> VNone ->
  v = VDict d'
  /\ validate_mapping validated ps req d' = (Ret (VDict d'), d').
Proof.
  intros Hnd Hsub Hrun Hv.
  destruct (validate_mapping_frame validated ps req d d' v Hrun Hv)
    as (Hd & Hkeys & _).
  split; [exact Hd|].
  apply (validate_mapping_same_keys validated ps req d d' _ Hkeys) with (v := v) (d2 := d');
    try assumption.
  unfold validate_mapping in Hrun.
  destruct req as [|r0 req].
  - destruct (negb _); [injection Hrun as <- _; contradiction|].
    now apply (validate_properties_settled ps Hnd Hsub d d' v).
  - destruct (filter _ (r0 :: req)); [|injection Hrun as <- _; contradiction].
    now apply (validate_properties_settled ps Hnd Hsub d d' v).
Qed.

Lemma truthy_not_None (v : value) : truthy v = true -> v <> VNone.
Proof. intros H ->. discriminate H. Qed.

Lemma validate_items_settled (i : Schema) :
  settled i ->
  forall (todo done l' : list value) (v : value),
    validate_items (validated i) done todo = (Ret v, l') ->
    v <> VNone ->
    v = VList l'
    /\ exists todo', l' = done ++ todo'
                     /\ forall done0,
                         validate_items (validated i) done0 todo'
                         = (Ret (VList (done0 ++ todo')), done0 ++ todo').
Proof.
  intros Hi. induction todo as [|item todo IH]; intros done l' v Hrun Hv;
    simpl in Hrun.
  - injection Hrun as <- <-. split; [reflexivity|].
    exists []. split; [now rewrite app_nil_r|].
    intros done0. simpl. now rewrite app_nil_r.
  - destruct (validated i item) as [[w|e] item'] eqn:Hval; [|discriminate].
    destruct (truthy w) eqn:Hw; simpl in Hrun;
      [|injection Hrun as <- _; contradiction].
    destruct (IH _ _ _ Hrun Hv) as (Hd & todo' & Hl & Hagain).
    split; [exact Hd|].
    exists (item' :: todo'). split.
    + rewrite Hl, <- app_assoc. reflexivity.
    + intros done0. simpl.
      destruct (Hi item w item' Hval (truthy_not_None w Hw)) as [_ Hitem].
      rewrite Hitem, Hw. simpl. rewrite Hagain, <- app_assoc. reflexivity.
Qed.

Lemma validated_basic_settled (t : str) (data v : value) :
  validated_basic t data = Ret v -> validated_basic t v = Ret v.
Proof.
  destruct data; try (intros H; injection H as <-; reflexivity).
  unfold validated_basic at 1.
  destruct (negb (isinstance (VStr s) (type_map_get t))) eqn:Hinst.
  2:{ intros H. injection H as <-. unfold validated_basic. now rewrite Hinst. }
  intros H. apply validated_basic_not_str.
  destruct (str_eqb t (lit "number")).
  - destruct (mem "." s); simpl in H; unfold py_float, py_int in H.
    + destruct (float_of_str s); [injection H as <-; reflexivity|discriminate].
    + destruct (int_of_str s); [injection H as <-; reflexivity|discriminate].
  - destruct (type_map_get t); simpl in Hinst, H; try discriminate Hinst;
      unfold py_int, py_float in H;
      try destruct (int_of_str s); try destruct (float_of_str s);
      try discriminate H; injection H as <-; reflexivity.
Qed.

Lemma distinct_keys_settled (s : Schema) : distinct_keys s = true -> settled s.
Proof.
  induction s as [t ps its req IHps IHits] using Schema_induction.
  intros Hwf. cbn [distinct_keys] in Hwf.
  apply andb_true_iff in Hwf as [Hwf Hits].
  apply andb_true_iff in Hwf as [Hnd Hsubs].
  apply distinct_NoDup in Hnd.
  assert (Hps : Forall (fun p => settled (snd p)) ps).
  { rewrite forallb_forall in Hsubs. rewrite Forall_forall in IHps |- *.
    intros p Hp. apply IHps; auto. }
  intros data v data' Hrun Hv. cbn [validated] in Hrun.
  destruct (str_eqb t (lit "object")) eqn:Eo.
  - assert (Hmap : forall d d',
               validate_mapping validated ps req d = (Ret v, d') ->
               v = VDict d'
               /\ validated (mkSchema t ps its req) (VDict d')
                  = (Ret (VDict d'), VDict d')
               /\ forall rest,
                   validated (mkSchema t ps its req) (VList (VDict d' :: rest))
                   = (Ret (VDict d'), VList (VDict d' :: rest))).
    { intros d d' E.
      destruct (validate_mapping_settled ps req d d' v Hnd Hps E Hv) as [Hd Hagain].
      split; [exact Hd|].
      cbn [validated]. rewrite Eo, Hagain. auto. }
    destruct data as [| | | | |l|d];
      try (injection Hrun as <- _; contradiction).
    + destruct l as [|x rest]; [injection Hrun as <- _; contradiction|].
      destruct x; try (injection Hrun as <- _; contradiction).
      destruct (validate_mapping validated ps req d) as [r d'] eqn:E.
      injection Hrun as -> <-.
      destruct (Hmap d d' E) as (-> & Hone & Hlist). auto.
    + destruct (validate_mapping validated ps req d) as [r d'] eqn:E.
      injection Hrun as -> <-.
      destruct (Hmap d d' E) as (-> & Hone & Hlist). auto.
  - destruct (str_eqb t (lit "array")) eqn:Ea.
    + assert (Hlist : forall l l',
                 match its with
                 | Some items_schema => validate_items (validated items_schema) [] l
                 | None => (Ret (VList l), l)
                 end = (Ret v, l') ->
                 v = VList l'
                 /\ validated (mkSchema t ps its req) (VList l')
                    = (Ret (VList l'), VList l')
                 /\ forall k rest,
                     validated (mkSchema t ps its req)
                               (VDict ((k, VList l') :: rest))
                     = (Ret (VList l'), VDict ((k, VList l') :: rest))).
      { intros l l' H.
        assert (Hagain : v = VList l'
                         /\ match its with
                            | Some items_schema =>
                                validate_items (validated items_schema) [] l'
                            | None => (Ret (VList l'), l')
                            end = (Ret (VList l'), l')).
        { destruct its as [i|].
          - destruct (validate_items_settled i (IHits i eq_refl Hits) l [] l' v H Hv)
              as (Hd & todo' & Hl & Hagain).
            split; [exact Hd|]. simpl in Hl. subst l'. apply (Hagain []).
          - injection H as <- <-. auto. }
        destruct Hagain as [Hd Hagain]. split; [exact Hd|].
        cbn [validated]. rewrite Eo, Ea, Hagain. auto. }
      destruct data as [| | | | |l|d];
        try (injection Hrun as <- _; contradiction).
      * clear Hits.
        destruct (match its with Some _ => _ | None => _ end) as [r l'] eqn:E.
        injection Hrun as -> <-.
        destruct (Hlist l l' E) as (-> & Hone & Hdict). auto.
      * destruct d as [|[k x] rest]; [injection Hrun as <- _; contradiction|].
        destruct x; try (injection Hrun as <- _; contradiction).
        clear Hits.
        destruct (match its with Some _ => _ | None => _ end) as [r l'] eqn:E.
        injection Hrun as -> <-.
        destruct (Hlist l l' E) as (-> & Hone & Hdict). auto.
    + injection Hrun as Hbasic <-. cbn [validated]. rewrite Eo, Ea.
      rewrite Hbasic, (validated_basic_settled t data v Hbasic). auto.
Qed.

(** X2.  Validating a validated value changes nothing: when the keys of
    [properties] are distinct at every level, what [validated] returns is
    returned again, unchanged, by a second call. *)
Theorem validated_twice :
  forall (s : Schema) (data v : value),
    distinct_keys s = true ->
    fst (validated s data) = Ret v ->
    v <> VNone ->
    validated s v = (Ret v, v).
Proof.
  intros s data v Hwf Hrun Hv.
  destruct (validated s data) as [r data'] eqn:E. simpl in Hrun. subst r.
  now destruct (distinct_keys_settled s Hwf data v data' E Hv).
Qed.

Lemma validated_twice_witness :
  validated schema_with_required
    (VDict [(lit "name", VStr (lit "Ann")); (lit "age", VInt 41)])
  = (Ret (VDict [(lit "name", VStr (lit "Ann")); (lit "age", VInt 41)]),
     VDict [(lit "name", VStr (lit "Ann")); (lit "age", VInt 41)]).
Proof.
  apply (validated_twice schema_with_required
           (VList [VDict [(lit "name", VStr (lit "Ann"));
                          (lit "age", VStr (lit "41"))]])).
  - vm_compute. reflexivity.
  - vm_compute. reflexivity.
  - discriminate.
Defined.

(** X3.  What [parse] returns conforms to the Schema: validated again, it
    is accepted and comes back unchanged. *)
Theorem parse_result_validates :
  forall (schema : Schema) (text : str) (v : value),
    distinct_keys schema = true ->
    parse schema text = Ret v ->
    validated schema v = (Ret v, v).
Proof.
  intros schema text v Hwf Hparse.
  apply parse_candidates_returns in Hparse as [Hv [loaded Hval]].
  destruct (validated schema loaded) as [r data'] eqn:E. simpl in Hval. subst r.
  now destruct (distinct_keys_settled schema Hwf loaded v data' E Hv).
Qed.

Lemma parse_result_validates_witness :
  validated schema_with_required
    (VDict [(lit "name", VStr (lit "John Doe")); (lit "age", VInt 30);
            (lit "emails", VList [VStr (lit "john@example.com")])])
  = (Ret (VDict [(lit "name", VStr (lit "John Doe")); (lit "age", VInt 30);
                 (lit "emails", VList [VStr (lit "john@example.com")])]),
     VDict [(lit "name", VStr (lit "John Doe")); (lit "age", VInt 30);
            (lit "emails", VList [VStr (lit "john@example.com")])]).
Proof.
  apply (parse_result_validates schema_with_required proper_json).
  - vm_compute. reflexivity.
  - vm_compute. reflexivity.
Defined.

(** ** What [validated] and [parse] raise *)

Section Raises.

Variable P : exn -> Prop.
Hypothesis P_int :
  forall s, P (ValueError (lit "invalid literal for int() with base 10: " ++ repr s)).
Hypothesis P_float :
  forall s, P (ValueError (lit "could not convert string to float: " ++ repr s)).

Lemma validated_basic_raises_in (t : str) (data : value) (e : exn) :
  validated_basic t data = Raise e -> P e.
Proof.
  unfold validated_basic. destruct data; try discriminate.
  destruct (negb _); [|discriminate].
  destruct (str_eqb t (lit "number")).
  - destruct (mem "." s); simpl; unfold py_float, py_int;
      [destruct (float_of_str s)|destruct (int_of_str s)];
      try discriminate; intros H; injection H as <-;
      first [apply P_int|apply P_float].
  - destruct (type_map_get t); simpl; try discriminate; unfold py_float, py_int;
      [destruct (int_of_str s)|destruct (float_of_str s)];
      try discriminate; intros H; injection H as <-;
      first [apply P_int|apply P_float].
Qed.

Lemma validate_properties_raises_in
  (f : Schema -> value -> outcome value * value) (ps : list (str * Schema)) :
  Forall (fun p => forall data e, fst (f (snd p) data) = Raise e -> P e) ps ->
  forall (d : dict) (e : exn),
    fst (validate_properties f ps d) = Raise e -> P e.
Proof.
  induction 1 as [|[key sub_schema] ps Hsub _ IH]; intros d e; simpl;
    [discriminate|].
  destruct (dict_get d key) as [x|]; [|apply IH].
  simpl in Hsub. specialize (Hsub x).
  destruct (f sub_schema x) as [[w|e'] x'].
  - destruct w; try apply IH; discriminate.
  - simpl. intros H. injection H as <-. now apply Hsub.
Qed.

Lemma validate_items_raises_in (f : value -> outcome value * value) :
  (forall data e, fst (f data) = Raise e -> P e) ->
  forall (todo done : list value) (e : exn),
    fst (validate_items f done todo) = Raise e -> P e.
Proof.
  intros Hf. induction todo as [|item todo IH]; intros done e; simpl;
    [discriminate|].
  specialize (Hf item).
  destruct (f item) as [[w|e'] item'].
  - destruct (negb (truthy w)); [discriminate|apply IH].
  - simpl. intros H. injection H as <-. now apply Hf.
Qed.

Lemma validated_raises_in (s : Schema) :
  forall data e, fst (validated s data) = Raise e -> P e.
Proof.
  induction s as [t ps its req IHps IHits] using Schema_induction.
  intros data e. cbn [validated].
  destruct (str_eqb t (lit "object")).
  - assert (Hmap : forall d, fst (validate_mapping validated ps req d) = Raise e -> P e).
    { intros d. unfold validate_mapping.
      destruct req as [|r0 req].
      - destruct (negb _); [discriminate|].
        now apply validate_properties_raises_in.
      - destruct (filter _ (r0 :: req)); [|discriminate].
        now apply validate_properties_raises_in. }
    destruct data as [| | | | |l|d]; try discriminate.
    + destruct l as [|x rest]; [discriminate|].
      destruct x; try discriminate.
      specialize (Hmap d).
      destruct (validate_mapping validated ps req d). exact Hmap.
    + specialize (Hmap d).
      destruct (validate_mapping validated ps req d). exact Hmap.
  - destruct (str_eqb t (lit "array")).
    + assert (Hlist : forall l,
                 fst (match its with
                      | Some items_schema =>
                          validate_items (validated items_schema) [] l
                      | None => (Ret (VList l), l)
                      end) = Raise e -> P e).
      { intros l. destruct its as [i|]; [|discriminate].
        apply validate_items_raises_in. now apply IHits. }
      destruct data as [| | | | |l|d]; try discriminate.
      * specialize (Hlist l).
        destruct (match its with Some _ => _ | None => _ end). exact Hlist.
      * destruct d as [|[k x] rest]; [discriminate|].
        destruct x; try discriminate.
        specialize (Hlist l).
        destruct (match its with Some _ => _ | None => _ end). exact Hlist.
    + simpl. apply validated_basic_raises_in.
Qed.

End Raises.




(** ** The branches of [validated] *)

Lemma not_recognised (t : str) :
  ~ In t recognised_types ->
  str_eqb t (lit "object") = false /\ str_eqb t (lit "array") = false
  /\ type_map_get t = T_object.
Proof.
  unfold recognised_types. simpl. intros H.
  assert (Hne : forall u, In u recognised_types -> str_eqb t u = false).
  { intros u Hu. apply str_eqb_neq. intros ->. now apply H. }
  unfold recognised_types in Hne. unfold type_map_get.
  rewrite !Hne by (simpl; tauto). auto.
Qed.

(** X5.  A Schema whose [type] is none of the six recognised names
    accepts everything: every value comes back as it is. *)
Theorem unrecognised_type_accepts_everything :
  forall (t : str) (properties : list (str * Schema)) (items : option Schema)
         (required : list str) (data : value),
    ~ In t recognised_types ->
    validated (mkSchema t properties items required) data = (Ret data, data).
Proof.
  intros t properties items required data Ht.
  destruct (not_recognised t Ht) as (Ho & Ha & Hmap).
  cbn [validated]. rewrite Ho, Ha. unfold validated_basic. rewrite Hmap.
  destruct data; reflexivity.
Qed.

Lemma unrecognised_type_accepts_everything_witness :
  validated (mkSchema (lit "integer") [] None []) (VStr (lit "abc"))
  = (Ret (VStr (lit "abc")), VStr (lit "abc")).
Proof.
  apply (unrecognised_type_accepts_everything (lit "integer") [] None []).
  unfold recognised_types. simpl.
  intros [H|[H|[H|[H|[H|[H|[]]]]]]]; discriminate H.
Defined.


(** X7.  With an empty [required] list, the object branch rejects a
    mapping that holds none of the keys of [properties]; a Schema without
    properties so rejects every mapping. *)
Theorem object_without_known_key_rejected :
  forall (properties : list (str * Schema)) (items : option Schema) (d : dict),
    (forall key, In key (map fst properties) -> dict_mem key d = false) ->
    validated (mkSchema (lit "object") properties items []) (VDict d)
    = (Ret VNone, VDict d).
Proof.
  intros properties items d Hnone. cbn [validated].
  change (str_eqb (lit "object") (lit "object")) with true. cbv iota.
  unfold validate_mapping.
  replace (existsb (fun key => dict_mem key d) (map fst properties)) with false;
    [reflexivity|].
  symmetry. induction (map fst properties) as [|k ks IH]; simpl; [reflexivity|].
  rewrite (Hnone k) by (now left). apply IH.
  intros key Hkey. apply Hnone. now right.
Qed.

Lemma object_without_known_key_rejected_witness :
  validated (mkSchema (lit "object") [] None []) (VDict [(lit "a", VInt 1)])
  = (Ret VNone, VDict [(lit "a", VInt 1)]).
Proof.
  apply (object_without_known_key_rejected [] None [(lit "a", VInt 1)]).
  intros key [].
Defined.

(** X8.  Given a sequence, the object branch looks at its first element
    only, and only one level deep: the outcome is that of the first
    element when it is a mapping, whatever follows it; a sequence that is
    empty or begins with a sequence is rejected. *)
Theorem object_branch_unwraps_first_element :
  forall (properties : list (str * Schema)) (items : option Schema)
         (required : list str),
    let schema := mkSchema (lit "object") properties items required in
    (forall (d : dict) (rest : list value),
        fst (validated schema (VList (VDict d :: rest)))
        = fst (validated schema (VDict d)))
    /\ (forall (l rest : list value),
           fst (validated schema (VList (VList l :: rest))) = Ret VNone)
    /\ fst (validated schema (VList [])) = Ret VNone.
Proof.
  intros properties items required schema. unfold schema. cbn [validated].
  change (str_eqb (lit "object") (lit "object")) with true. cbv iota.
  repeat split.
  intros d rest.
  now destruct (validate_mapping validated properties required d).
Qed.

(** ** The kind of what comes back *)

Lemma existsb_dict_mem (keys : list str) (d : dict) :
  existsb (fun key => dict_mem key d) keys = true ->
  exists key, In key keys /\ dict_mem key d = true.
Proof.
  rewrite existsb_exists. intros (key & Hin & Hmem). eauto.
Qed.

Lemma validated_object_kind (properties : list (str * Schema))
  (items : option Schema) (required : list str) (data v : value) :
  fst (validated (mkSchema (lit "object") properties items required) data) = Ret v ->
  v <> VNone ->
  exists d, v = VDict d
            /\ (required = [] ->
                exists key, In key (map fst properties) /\ dict_mem key d = true).
Proof.
  intros Hrun Hv. cbn [validated] in Hrun.
  change (str_eqb (lit "object") (lit "object")) with true in Hrun.
  cbv iota in Hrun.
  assert (Hmap : forall d0 d', 
             validate_mapping validated properties required d0 = (Ret v, d') ->
             exists d, v = VDict d
                       /\ (required = [] ->
                           exists key, In key (map fst properties)
                                       /\ dict_mem key d = true)).
  { intros d0 d' E.
    destruct (validate_mapping_frame validated properties required d0 d' v E Hv)
      as (Hd & Hkeys & _).
    exists d'. split; [exact Hd|]. intros ->.
    unfold validate_mapping in E.
    destruct (existsb (fun key => dict_mem key d0) (map fst properties)) eqn:Hany;
      simpl in E; [|injection E as <- _; contradiction].
    destruct (existsb_dict_mem _ _ Hany) as (key & Hin & Hmem).
    exists key. split; [exact Hin|].
    now rewrite (dict_mem_same_keys d0 d' key Hkeys). }
  destruct data as [| | | | |l|d0]; try (injection Hrun as <-; contradiction).
  - destruct l as [|x rest]; [injection Hrun as <-; contradiction|].
    destruct x; try (injection Hrun as <-; contradiction).
    destruct (validate_mapping validated properties required d) as [r d'] eqn:E.
    simpl in Hrun. subst r. now apply (Hmap d d').
  - destruct (validate_mapping validated properties required d0) as [r d'] eqn:E.
    simpl in Hrun. subst r. now apply (Hmap d0 d').
Qed.

Lemma validate_items_kind (f : value -> outcome value * value) :
  forall (todo done : list value) (v : value),
    fst (validate_items f done todo) = Ret v -> v <> VNone ->
    exists l, v = VList l.
Proof.
  induction todo as [|item todo IH]; intros done v; simpl.
  - intros H _. injection H as <-. eauto.
  - destruct (f item) as [[w|e] item']; [|discriminate].
    destruct (negb (truthy w)); [|apply IH].
    simpl. intros H Hv. injection H as <-. contradiction.
Qed.

Lemma validated_array_kind (properties : list (str * Schema))
  (items : option Schema) (required : list str) (data v : value) :
  fst (validated (mkSchema (lit "array") properties items required) data) = Ret v ->
  v <> VNone ->
  exists l, v = VList l.
Proof.
  intros Hrun Hv. cbn [validated] in Hrun.
  change (str_eqb (lit "array") (lit "object")) with false in Hrun.
  change (str_eqb (lit "array") (lit "array")) with true in Hrun.
  cbv iota in Hrun.
  assert (Hlist : forall l0,
             fst (match items with
                  | Some items_schema =>
                      validate_items (validated items_schema) [] l0
                  | None => (Ret (VList l0), l0)
                  end) = Ret v -> exists l, v = VList l).
  { intros l0. destruct items as [i|].
    - intros H. now apply (validate_items_kind (validated i) l0 []).
    - simpl. intros H. injection H as <-. eauto. }
  destruct data as [| | | | |l0|d]; try (injection Hrun as <-; contradiction).
  - specialize (Hlist l0).
    destruct (match items with Some _ => _ | None => _ end). exact (Hlist Hrun).
  - destruct d as [|[k x] rest]; [injection Hrun as <-; contradiction|].
    destruct x; try (injection Hrun as <-; contradiction).
    specialize (Hlist l).
    destruct (match items with Some _ => _ | None => _ end). exact (Hlist Hrun).
Qed.

(** X9.  What [parse] returns has the kind of the Schema: with an
    ['object'] Schema a mapping, which holds at least one key of
    [properties] when [required] is empty; with an ['array'] Schema a
    sequence. *)
Theorem parse_result_kind :
  forall (properties : list (str * Schema)) (items : option Schema)
         (required : list str) (text : str) (v : value),
    (parse (mkSchema (lit "object") properties items required) text = Ret v ->
     exists d, v = VDict d
               /\ (required = [] ->
                   exists key, In key (map fst properties)
                               /\ dict_mem key d = true))
    /\ (parse (mkSchema (lit "array") properties items required) text = Ret v ->
        exists l, v = VList l).
Proof.
  intros properties items required text v. split; intros Hparse;
    apply parse_candidates_returns in Hparse as [Hv [loaded Hval]].
  - now apply (validated_object_kind properties items required loaded).
  - now apply (validated_array_kind properties items required loaded).
Qed.

Lemma parse_result_kind_witness :
  (exists v, parse schema_without_required
                   (txt "{`name`: `Test`, `emails`: [`test@example.com`]}") = Ret v
             /\ exists d, v = VDict d
                          /\ (@nil str = [] ->
                              exists key, In key (map fst person_properties)
                                          /\ dict_mem key d = true))
  /\ (exists v, parse emails_schema (txt "see [`a@b.c`]") = Ret v
                /\ exists l, v = VList l).
Proof.
  split; eexists; (split; [vm_compute; reflexivity|]).
  - apply (proj1 (parse_result_kind person_properties None []
                    (txt "{`name`: `Test`, `emails`: [`test@example.com`]}") _)).
    vm_compute. reflexivity.
  - apply (proj2 (parse_result_kind [] (Some string_schema) []
                    (txt "see [`a@b.c`]") _)).
    vm_compute. reflexivity.
Defined.

(** ** Items of a basic type *)

Lemma validate_items_unchanged (f : value -> outcome value * value) :
  (forall item, snd (f item) = item) ->
  forall (todo done : list value) (v : value),
    fst (validate_items f done todo) = Ret v -> v <> VNone ->
    v = VList (done ++ todo).
Proof.
  intros Hf. induction todo as [|item todo IH]; intros done v; simpl.
  - intros H _. injection H as <-. now rewrite app_nil_r.
  - pose proof (Hf item) as Hitem.
    destruct (f item) as [[w|e] item']; [|discriminate].
    simpl in Hitem. subst item'.
    destruct (negb (truthy w)).
    + simpl. intros H Hv. injection H as <-. contradiction.
    + intros H Hv. rewrite (IH _ _ H Hv), <- app_assoc. reflexivity.
Qed.

(** X10.  With an items Schema of a basic type, a sequence that the array
    branch accepts is returned as it was given: an item that is a numeric
    string is checked as a number and stays a string. *)
Theorem array_items_not_written_back :
  forall (t : str) (properties : list (str * Schema)) (items : option Schema)
         (required : list str) (l : list value) (v : value),
    In t scalar_types ->
    fst (validated
           (mkSchema (lit "array") []
                     (Some (mkSchema t properties items required)) [])
           (VList l)) = Ret v ->
    v <> VNone ->
    v = VList l.
Proof.
  intros t properties items required l v Ht Hrun Hv.
  destruct (scalar_type_cases t Ht) as [Ho Ha].
  change (validated _ (VList l))
    with (let (r, l') :=
            validate_items (validated (mkSchema t properties items required))
                           [] l in (r, VList l')) in Hrun.
  destruct (validate_items _ [] l) as [r l'] eqn:E. simpl in Hrun. subst r.
  apply (validate_items_unchanged
           (validated (mkSchema t properties items required))) with (done := []);
    [|now rewrite E|assumption].
  intros item. cbn [validated]. now rewrite Ho, Ha.
Qed.

Lemma array_items_not_written_back_witness :
  exists v,
    fst (validated (mkSchema (lit "array") [] (Some number_schema) [])
                   (VList [VStr (lit "5"); VInt 7])) = Ret v
    /\ v = VList [VStr (lit "5"); VInt 7].
Proof.
  eexists. split; [vm_compute; reflexivity|].
  apply (array_items_not_written_back (lit "number") [] None []
           [VStr (lit "5"); VInt 7]).
  - simpl. right. left. reflexivity.
  - vm_compute. reflexivity.
  - discriminate.
Defined.

(** ** The escape pass *)

Lemma mem_app (c : ascii) (a b : str) : mem c (a ++ b) = mem c a || mem c b.
Proof. unfold mem. apply existsb_app. Qed.

Lemma replace_cons (old : ascii) (new : str) (c : ascii) (s : str) :
  replace old new (c :: s)
  = (if Ascii.eqb c old then new else [c]) ++ replace old new s.
Proof. reflexivity. Qed.

(** Once [old] is replaced by a text that does not hold it, it is gone. *)
Lemma replace_removes (old : ascii) (new : str) (s : str) :
  mem old new = false -> mem old (replace old new s) = false.
Proof.
  intros Hnew. induction s as [|c s IH]; [reflexivity|].
  rewrite replace_cons, mem_app, IH, orb_false_r.
  destruct (Ascii.eqb c old) eqn:E; [exact Hnew|].
  simpl. now rewrite Ascii.eqb_sym, E.
Qed.

(** A replacement brings in no character that its new text does not
    hold. *)
Lemma replace_keeps_absent (c old : ascii) (new : str) (s : str) :
  mem c new = false -> mem c s = false -> mem c (replace old new s) = false.
Proof.
  intros Hnew. induction s as [|x s IH]; [reflexivity|].
  intros Hs. simpl in Hs. apply orb_false_iff in Hs as [Hx Hs].
  rewrite replace_cons, mem_app, (IH Hs), orb_false_r.
  destruct (Ascii.eqb x old); [exact Hnew|]. simpl. now rewrite Hx.
Qed.

(** The walk over the quotes adds backslashes only. *)
Lemma escape_quotes_keeps_absent (c : ascii) (s : str) :
  Ascii.eqb c backslash = false ->
  forall in_string, mem c s = false -> mem c (escape_quotes in_string s) = false.
Proof.
  intros Hb. induction s as [|x s IH]; intros in_string Hs; [reflexivity|].
  simpl in Hs. apply orb_false_iff in Hs as [Hx Hs]. cbn [escape_quotes].
  destruct (Ascii.eqb x dq) eqn:Ex.
  - apply Ascii.eqb_eq in Ex. subst x.
    destruct in_string; cbn [negb].
    + destruct (lstrip s) as [|y r]; [|destruct (mem y (lit ":,}]"))];
        cbn [mem existsb]; rewrite ?Hx, ?Hb; cbn [orb]; now apply IH.
    + cbn [mem existsb]. rewrite Hx. cbn [orb]. now apply IH.
  - simpl. rewrite Hx. simpl. now apply IH.
Qed.

Lemma escape_quotes_no_quote (s : str) :
  mem dq s = false -> forall in_string, escape_quotes in_string s = s.
Proof.
  induction s as [|x s IH]; intros Hs in_string; [reflexivity|].
  unfold mem in Hs. cbn [existsb] in Hs. apply orb_false_iff in Hs as [Hx Hs].
  cbn [escape_quotes]. rewrite Ascii.eqb_sym, Hx. now rewrite (IH Hs).
Qed.

(** X11.  What the escape pass gives out holds no raw newline, carriage
    return or tab, whatever it is given. *)
Theorem escape_leaves_no_control_character :
  forall json_str : str,
    mem LF (escape_illegal_characters json_str) = false
    /\ mem CR (escape_illegal_characters json_str) = false
    /\ mem TAB (escape_illegal_characters json_str) = false.
Proof.
  intros json_str. unfold escape_illegal_characters.
  repeat split; apply escape_quotes_keeps_absent; try reflexivity.
  - apply replace_keeps_absent; [reflexivity|].
    apply replace_keeps_absent; [reflexivity|].
    now apply replace_removes.
  - apply replace_keeps_absent; [reflexivity|].
    now apply replace_removes.
  - now apply replace_removes.
Qed.

(** X12.  A text without backslash, newline, carriage return, tab and
    double quote leaves the escape pass as it came. *)
Theorem escape_identity_without_special_characters :
  forall json_str : str,
    mem backslash json_str = false -> mem LF json_str = false ->
    mem CR json_str = false -> mem TAB json_str = false ->
    mem dq json_str = false ->
    escape_illegal_characters json_str = json_str.
Proof.
  intros json_str Hb Hn Hr Ht Hq. unfold escape_illegal_characters.
  rewrite (escape_stage_one_identity json_str Hb Hn Hr Ht).
  now apply escape_quotes_no_quote.
Qed.

Lemma escape_identity_without_special_characters_witness :
  escape_illegal_characters (lit "{name: 'Ann', age: 41}")
  = lit "{name: 'Ann', age: 41}".
Proof.
  apply escape_identity_without_special_characters; reflexivity.
Defined.

(** ** More on the bracket-closure pass *)

Lemma closer_is_closer (c : ascii) : is_closer (closer c) = true.
Proof. unfold closer. now destruct (Ascii.eqb c "{"). Qed.

Lemma filter_closers (open : list ascii) :
  filter (fun c => negb (is_closer c)) (map closer open) = [].
Proof.
  induction open as [|top open IH]; simpl; [reflexivity|].
  now rewrite closer_is_closer.
Qed.

Lemma closure_spec_filter (s : str) :
  forall (open : list ascii) (q : option ascii) (esc : bool),
    filter (fun c => negb (is_closer c)) (closure_spec open q esc s)
    = filter (fun c => negb (is_closer c)) s.
Proof.
  induction s as [|c s IH]; intros open q esc; cbn [closure_spec].
  - apply filter_closers.
  - destruct esc; [cbn [filter]; now rewrite IH|].
    destruct (Ascii.eqb c backslash); [cbn [filter]; now rewrite IH|].
    destruct (is_quote c).
    { destruct q; cbn [filter]; now rewrite IH. }
    destruct q; [cbn [filter]; now rewrite IH|].
    destruct (is_opener c); [cbn [filter]; now rewrite IH|].
    destruct (is_closer c) eqn:Ec; [|cbn [filter]; now rewrite IH].
    destruct open as [|innermost outer];
      [|destruct (Ascii.eqb (closer innermost) c)];
      cbn [filter]; rewrite Ec; cbn [negb]; apply IH.
Qed.

(** X13.  The bracket-closure pass removes and adds closing brackets and
    nothing else: with the closing brackets left out, its result reads as
    its input. *)
Theorem ensure_ending_brackets_touches_closers_only :
  forall json_str : str,
    filter (fun c => negb (is_closer c)) (ensure_ending_brackets json_str)
    = filter (fun c => negb (is_closer c)) json_str.
Proof.
  intros json_str. unfold ensure_ending_brackets.
  change (mkState [] [] None false) with (mkState (rev []) [] None false).
  rewrite closure_loop_spec by constructor.
  apply closure_spec_filter.
Qed.

Lemma closure_spec_free (s : str) :
  bracket_free s = true ->
  forall (open : list ascii) (q : option ascii) (esc : bool),
    closure_spec open q esc s = s ++ map closer open.
Proof.
  induction s as [|c s IH]; intros Hs open q esc; [reflexivity|].
  apply bracket_free_cons in Hs as (Ho & Hc & Hs).
  cbn [closure_spec]. rewrite Ho, Hc.
  destruct esc; [now rewrite IH|].
  destruct (Ascii.eqb c backslash); [now rewrite IH|].
  destruct (is_quote c); destruct q; now rewrite IH.
Qed.

(** X14.  A text without braces and square brackets leaves the
    bracket-closure pass as it came, quotes and backslashes included. *)
Theorem ensure_ending_brackets_identity_without_brackets :
  forall json_str : str,
    bracket_free json_str = true ->
    ensure_ending_brackets json_str = json_str.
Proof.
  intros json_str Hfree. unfold ensure_ending_brackets.
  change (mkState [] [] None false) with (mkState (rev []) [] None false).
  rewrite closure_loop_spec by constructor.
  cbn [app]. rewrite (closure_spec_free json_str Hfree). apply app_nil_r.
Qed.

Lemma ensure_ending_brackets_identity_without_brackets_witness :
  ensure_ending_brackets (lit "it's 5 o'clock \ now") = lit "it's 5 o'clock \ now".
Proof.
  apply ensure_ending_brackets_identity_without_brackets. reflexivity.
Defined.

(** One round of the loop, with what it adds to the result: the
    character, or nothing, and then the state is as it was. *)
Lemma closure_step_cases (open res : list ascii) (q : option ascii)
  (esc : bool) (c : ascii) :
  Forall (fun c => is_opener c = true) open ->
  exists open' kept q' esc',
    closure_step (mkState (rev open) res q esc) c
    = mkState (rev open') (res ++ kept) q' esc'
    /\ Forall (fun c => is_opener c = true) open'
    /\ (forall rest, closure_spec open q esc (c :: rest)
                     = kept ++ closure_spec open' q' esc' rest)
    /\ (kept = [c] \/ (kept = [] /\ open' = open /\ q' = q /\ esc' = esc)).
Proof.
  intros Hop.
  unfold closure_step, set_stack, set_result, set_in_string, set_escape.
  cbn [stack result in_string escape closure_spec].
  destruct esc.
  { exists open, [c], q, false. auto. }
  destruct (Ascii.eqb c backslash).
  { exists open, [c], q, true. auto. }
  unfold is_quote. destruct (Ascii.eqb c dq || Ascii.eqb c sq).
  { destruct q as [q|]; [destruct (Ascii.eqb q c)|];
      eexists open, [c], _, false; auto. }
  destruct q as [q|].
  { exists open, [c], (Some q), false. auto. }
  unfold opening_brackets, closing_brackets, is_opener, is_closer.
  destruct (Ascii.eqb c "{") eqn:E1.
  { exists (c :: open), [c], None, false. cbn [rev orb].
    repeat split; auto.
    constructor; [unfold is_opener; now rewrite E1|assumption]. }
  destruct (Ascii.eqb c "[") eqn:E2.
  { exists (c :: open), [c], None, false. cbn [rev orb].
    repeat split; auto.
    constructor; [unfold is_opener; now rewrite E2, orb_true_r|assumption]. }
  cbn [orb].
  destruct (Ascii.eqb c "}") eqn:E3.
  { apply Ascii.eqb_eq in E3. subst c. rewrite rev_involutive.
    destruct open as [|top outer].
    - exists [], [], None, false. rewrite removelast_last, app_nil_r. kept_case.
    - inversion Hop as [|? ? Htop Hout]; subst.
      destruct (opener_cases _ Htop) as [-> | ->]; cbn.
      + exists outer, ["}"], None, false. rewrite removelast_last. kept_case.
      + exists ("[" :: outer), [], None, false.
        rewrite removelast_last, app_nil_r. kept_case. }
  destruct (Ascii.eqb c "]") eqn:E4.
  { apply Ascii.eqb_eq in E4. subst c. rewrite rev_involutive.
    destruct open as [|top outer].
    - exists [], [], None, false. rewrite removelast_last, app_nil_r. kept_case.
    - inversion Hop as [|? ? Htop Hout]; subst.
      destruct (opener_cases _ Htop) as [-> | ->]; cbn.
      + exists ("{" :: outer), [], None, false.
        rewrite removelast_last, app_nil_r. kept_case.
      + exists outer, ["]"], None, false. rewrite removelast_last. kept_case. }
  exists open, [c], None, false. auto.
Qed.

Lemma closers_close (open : list ascii) :
  Forall (fun c => is_opener c = true) open ->
  closure_spec open None false (map closer open) = map closer open.
Proof.
  induction 1 as [|top outer Htop _ IH]; [reflexivity|].
  destruct (opener_cases _ Htop) as [-> | ->]; cbn; now rewrite IH.
Qed.

Lemma closure_spec_twice (s : str) :
  forall (open res : list ascii) (q : option ascii) (esc : bool),
    Forall (fun c => is_opener c = true) open ->
    let st := fold_left closure_step s (mkState (rev open) res q esc) in
    in_string st = None -> escape st = false ->
    closure_spec open q esc (closure_spec open q esc s)
    = closure_spec open q esc s.
Proof.
  induction s as [|c s IH]; intros open res q esc Hop st Hq Hesc.
  - simpl in st. subst st. simpl in Hq, Hesc. subst q esc.
    now apply closers_close.
  - destruct (closure_step_cases open res q esc c Hop)
      as (open' & kept & q' & esc' & Hstep & Hop' & Hspec & Hkept).
    unfold st in Hq, Hesc. cbn [fold_left] in Hq, Hesc. rewrite Hstep in Hq, Hesc.
    specialize (IH open' (res ++ kept) q' esc' Hop' Hq Hesc).
    rewrite (Hspec s).
    destruct Hkept as [-> | (-> & -> & -> & ->)].
    + change ([c] ++ closure_spec open' q' esc' s)
        with (c :: closure_spec open' q' esc' s).
      rewrite Hspec, IH. reflexivity.
    + exact IH.
Qed.

(** X15.  When the text ends outside the quoted regions and not on a
    backslash, running the bracket-closure pass on its own result changes
    nothing: the result is balanced in the eyes of the pass. *)
Theorem ensure_ending_brackets_twice :
  forall json_str : str,
    let st := fold_left closure_step json_str (mkState [] [] None false) in
    in_string st = None -> escape st = false ->
    ensure_ending_brackets (ensure_ending_brackets json_str)
    = ensure_ending_brackets json_str.
Proof.
  intros json_str st Hq Hesc. unfold ensure_ending_brackets.
  change (mkState [] [] None false) with (mkState (rev []) [] None false).
  rewrite !closure_loop_spec by constructor.
  cbn [app].
  apply (closure_spec_twice json_str [] [] None false (Forall_nil _) Hq Hesc).
Qed.

Lemma ensure_ending_brackets_twice_witness :
  ensure_ending_brackets (ensure_ending_brackets (txt "{`a`: [1, 2} x]"))
  = ensure_ending_brackets (txt "{`a`: [1, 2} x]").
Proof.
  apply ensure_ending_brackets_twice; reflexivity.
Defined.

(** ** The candidates *)

Lemma items_star_passes (call : str -> (str -> option str) -> option str)
  (op cl : ascii) :
  (forall s k r, call s k = Some r ->
                 exists pre rest, s = pre ++ rest /\ k rest = Some r) ->
  forall (n : nat) (s : str) (k : str -> option str) (r : str),
    items_star call op cl n s (expect cl k) = Some r ->
    exists body rest, s = body ++ cl :: rest /\ k rest = Some r.
Proof.
  intros Hcall.
  assert (Hleave : forall s k r, expect cl k s = Some r ->
                                 exists body rest, s = body ++ cl :: rest
                                                   /\ k rest = Some r).
  { intros [|x s] k r; simpl; [discriminate|].
    destruct (Ascii.eqb x cl) eqn:E; [|discriminate].
    apply Ascii.eqb_eq in E. subst x. intros H. now exists [], s. }
  induction n as [|n IH]; intros s k r; [apply Hleave|].
  rewrite items_star_round.
  destruct (match s with
            | [] => None
            | c :: s' =>
                if negb (Ascii.eqb c op || Ascii.eqb c cl)
                then items_star call op cl n s' (expect cl k) else None
            end) as [m|] eqn:Hclass.
  - intros H. injection H as ->.
    destruct s as [|c s']; [discriminate|].
    destruct (negb _); [|discriminate].
    destruct (IH _ _ _ Hclass) as (body & rest & -> & Hk).
    now exists (c :: body), rest.
  - destruct (call s _) as [m|] eqn:Hc.
    + intros H. injection H as ->.
      destruct (Hcall _ _ _ Hc) as (pre & rest' & -> & Hnext).
      destruct (IH _ _ _ Hnext) as (body & rest & -> & Hk).
      exists (pre ++ body), rest. now rewrite <- app_assoc.
    + apply Hleave.
Qed.

(** A match of the pattern is an opening bracket, a body and the closing
    bracket of the same kind; the continuation gets what follows. *)
Lemma brace_bracket_passes (d : nat) :
  forall (s : str) (k : str -> option str) (r : str),
    brace_bracket d s k = Some r ->
    exists op body rest,
      is_opener op = true /\ s = op :: body ++ closer op :: rest
      /\ k rest = Some r.
Proof.
  induction d as [|d IH]; intros s k r; [discriminate|].
  assert (Hcall : forall s k r,
             brace_bracket d s k = Some r ->
             exists pre rest, s = pre ++ rest /\ k rest = Some r).
  { intros s0 k0 r0 H. destruct (IH _ _ _ H) as (op & body & rest & _ & -> & Hk).
    exists (op :: body ++ [closer op]), rest. split; [|exact Hk].
    simpl. now rewrite <- app_assoc. }
  simpl. destruct s as [|c s']; [discriminate|].
  destruct (Ascii.eqb c "{") eqn:E1.
  - apply Ascii.eqb_eq in E1. subst c. intros H.
    destruct (items_star_passes _ _ _ Hcall _ _ _ _ H) as (body & rest & -> & Hk).
    now exists "{", body, rest.
  - destruct (Ascii.eqb c "[") eqn:E2; [|discriminate].
    apply Ascii.eqb_eq in E2. subst c. intros H.
    destruct (items_star_passes _ _ _ Hcall _ _ _ _ H) as (body & rest & -> & Hk).
    now exists "[", body, rest.
Qed.

Lemma taken_app (m rest : str) : taken (m ++ rest) rest = m.
Proof.
  unfold taken. rewrite length_app, Nat.add_sub, firstn_app, Nat.sub_diag.
  simpl. now rewrite firstn_all, app_nil_r.
Qed.

Lemma findall_from_shape (s : str) :
  forall skip,
    Forall (fun m => (exists pre post, s = pre ++ m ++ post)
                     /\ exists op body, is_opener op = true
                                        /\ m = op :: body ++ [closer op])
           (findall_from skip s).
Proof.
  induction s as [|c s IH]; intros skip; [constructor|].
  assert (Htail : forall n,
             Forall (fun m => (exists pre post, c :: s = pre ++ m ++ post)
                              /\ exists op body, is_opener op = true
                                                 /\ m = op :: body ++ [closer op])
                    (findall_from n s)).
  { intros n. eapply Forall_impl; [|apply (IH n)].
    intros m [(pre & post & ->) Hshape]. split; [|exact Hshape].
    now exists (c :: pre), post. }
  destruct skip as [|skip]; [|apply Htail].
  rewrite findall_from_start.
  destruct (brace_bracket_match (c :: s)) as [rest|] eqn:Hm; [|apply Htail].
  unfold brace_bracket_match in Hm.
  destruct (brace_bracket_passes _ _ _ _ Hm) as (op & body & rest0 & Hop & Hs & Hk).
  injection Hk as ->.
  assert (Hs' : c :: s = (op :: body ++ [closer op]) ++ rest)
    by (rewrite Hs; simpl; now rewrite <- app_assoc).
  assert (Htaken : taken (c :: s) rest = op :: body ++ [closer op])
    by (rewrite Hs'; apply taken_app).
  assert (Hlen : List.length (c :: s) - List.length rest
                 = S (List.length (body ++ [closer op])))
    by (rewrite Hs', length_app, Nat.add_sub; reflexivity).
  rewrite Hlen, Htaken. constructor; [|apply Htail].
  split; [|now exists op, body].
  now exists [], rest.
Qed.

(** X16.  Every candidate that the pattern finds is a piece of the text
    that begins with a brace or a square bracket and ends with the closing
    bracket of the same kind. *)
Theorem candidates_are_bracketed_pieces :
  forall (text m : str),
    In m (BRACE_BRACKET_findall text) ->
    (exists pre post, text = pre ++ m ++ post)
    /\ exists op body, is_opener op = true /\ m = op :: body ++ [closer op].
Proof.
  intros text m Hin. unfold BRACE_BRACKET_findall in Hin.
  pose proof (findall_from_shape text 0) as Hall.
  rewrite Forall_forall in Hall. now apply Hall.
Qed.

Lemma candidates_are_bracketed_pieces_witness :
  (exists pre post,
      jane_prefix ++ jane_payload ++ jane_suffix = pre ++ jane_payload ++ post)
  /\ exists op body, is_opener op = true /\ jane_payload = op :: body ++ [closer op].
Proof.
  apply (candidates_are_bracketed_pieces
           (jane_prefix ++ jane_payload ++ jane_suffix) jane_payload).
  left. vm_compute. reflexivity.
Defined.

(** ** Text without punctuation *)

















(** ** The key-quoting pass *)

Lemma rmatch_seq (r1 r2 : regex) (s : str) (caps : captures)
  (k : str -> captures -> option (str * captures)) :
  rmatch (Seq r1 r2) s caps k
  = rmatch r1 s caps (fun s1 caps1 => rmatch r2 s1 caps1 k).
Proof. reflexivity. Qed.

Lemma rmatch_group (n : nat) (r : regex) (s : str) (caps : captures)
  (k : str -> captures -> option (str * captures)) :
  rmatch (Group n r) s caps k
  = rmatch r s caps (fun s' caps' => k s' ((n, taken s s') :: caps')).
Proof. reflexivity. Qed.

Lemma rmatch_cls (p : ascii -> bool) (c : ascii) (s : str) (caps : captures)
  (k : str -> captures -> option (str * captures)) :
  p c = true -> rmatch (Cls p) (c :: s) caps k = k s caps.
Proof. intros H. simpl. now rewrite H. Qed.

(** A star over a class takes the whole run of the class when what
    follows the run lets the rest of the pattern match. *)
Lemma rmatch_star_run (p : ascii -> bool) (rest : str) (caps : captures)
  (k : str -> captures -> option (str * captures)) (m : str * captures) :
  match rest with c :: _ => p c = false | [] => True end ->
  k rest caps = Some m ->
  forall run, forallb p run = true ->
              rmatch (Star (Cls p)) (run ++ rest) caps k = Some m.
Proof.
  intros Hnext Hk run Hrun. cbn [rmatch].
  remember (List.length (run ++ rest)) as n eqn:Hn.
  assert (Hle : List.length (run ++ rest) <= n) by lia. clear Hn.
  revert n Hle. induction run as [|c run IH]; intros n Hle.
  - destruct n as [|n]; [exact Hk|].
    destruct rest as [|c rest]; cbn; [exact Hk|]. now rewrite Hnext.
  - simpl in Hrun. apply andb_true_iff in Hrun as [Hc Hrun].
    simpl in Hle. destruct n as [|n]; [lia|].
    cbn [app]. cbn -[Nat.ltb List.length]. rewrite Hc.
    replace (List.length (run ++ rest) <? List.length (c :: run ++ rest))%nat with true
      by (symmetry; apply Nat.ltb_lt; simpl; lia).
    rewrite (IH Hrun n) by lia. reflexivity.
Qed.

Lemma isword_not_space (c : ascii) : isword c = true -> isspace c = false.
Proof.
  destruct c as [[] [] [] [] [] [] [] []]; vm_compute; congruence.
Qed.

Lemma isspace_not_word (c : ascii) : isspace c = true -> isword c = false.
Proof.
  destruct c as [[] [] [] [] [] [] [] []]; vm_compute; congruence.
Qed.

Lemma isword_not_quote (c : ascii) :
  isword c = true -> Ascii.eqb c sq = false /\ Ascii.eqb c dq = false.
Proof.
  destruct c as [[] [] [] [] [] [] [] []]; vm_compute; intuition congruence.
Qed.

Lemma fix_keys_match (d : ascii) (ws key ws2 rest : str) :
  mem d (lit "{,") = true ->
  forallb isspace ws = true ->
  key <> [] -> forallb isword key = true ->
  forallb isspace ws2 = true ->
  exists caps,
    re_match fix_keys_pattern (d :: ws ++ key ++ ws2 ++ ":" :: rest)
    = Some (rest, caps)
    /\ group caps 1 = d :: ws /\ group caps 2 = key.
Proof.
  intros Hd Hws Hne Hkey Hws2.
  destruct key as [|k0 key]; [contradiction|].
  simpl in Hkey. apply andb_true_iff in Hkey as [Hk0 Hkey].
  eexists. split.
  - unfold re_match, fix_keys_pattern, Plus, OneOf, Chr.
    rewrite rmatch_group, rmatch_seq, rmatch_group, rmatch_seq.
    rewrite rmatch_cls by exact Hd. cbv beta.
    apply rmatch_star_run; [|cbv beta|exact Hws].
    { simpl. now apply isword_not_space. }
    rewrite rmatch_seq, rmatch_group, rmatch_seq.
    change ((k0 :: key) ++ ws2 ++ ":" :: rest) with (k0 :: key ++ ws2 ++ ":" :: rest).
    rewrite rmatch_cls by exact Hk0. cbv beta.
    apply rmatch_star_run; [|cbv beta|exact Hkey].
    { destruct ws2 as [|x ws2]; simpl; [reflexivity|].
      simpl in Hws2. apply andb_true_iff in Hws2 as [Hx _].
      now apply isspace_not_word. }
    rewrite rmatch_seq.
    apply rmatch_star_run; [reflexivity|cbv beta|exact Hws2].
    rewrite rmatch_cls by reflexivity. reflexivity.
  - cbn [group Nat.eqb]. split.
    + change (d :: ws ++ k0 :: key ++ ws2 ++ ":" :: rest)
        with ((d :: ws) ++ k0 :: key ++ ws2 ++ ":" :: rest).
      apply taken_app.
    + change (k0 :: key ++ ws2 ++ ":" :: rest)
        with ((k0 :: key) ++ ws2 ++ ":" :: rest).
      apply taken_app.
Qed.

Lemma re_sub_from_skip (r : regex) (repl : captures -> str) (pre rest : str) :
  re_sub_from r repl (List.length pre) (pre ++ rest) = re_sub_from r repl 0 rest.
Proof. induction pre as [|c pre IH]; [reflexivity|exact IH]. Qed.

Lemma re_sub_from_prefix (r : regex) (repl : captures -> str)
  (p : ascii -> bool) :
  (forall c s, p c = true -> re_match r (c :: s) = None) ->
  forall pre s, forallb p pre = true ->
                re_sub_from r repl 0 (pre ++ s) = pre ++ re_sub_from r repl 0 s.
Proof.
  intros Hnone. induction pre as [|c pre IH]; intros s Hpre; [reflexivity|].
  simpl in Hpre. apply andb_true_iff in Hpre as [Hc Hpre].
  cbn [app re_sub_from]. rewrite (Hnone c (pre ++ s) Hc). now rewrite (IH s Hpre).
Qed.

Lemma fix_keys_needs_delimiter (c : ascii) (s : str) :
  negb (mem c (lit "{,")) = true -> re_match fix_keys_pattern (c :: s) = None.
Proof.
  intros Hc. apply negb_true_iff in Hc.
  unfold re_match, fix_keys_pattern, OneOf. cbn [rmatch]. now rewrite Hc.
Qed.

(** X18.  An unquoted key is quoted: after a brace or a comma and
    optional white space, a run of word characters that a colon follows
    (white space allowed before the colon) is wrapped in double quotes;
    the white space before the colon is dropped, and the pass goes on
    after the colon. *)
Theorem fix_keys_quotes_bare_key :
  forall (pre : str) (d : ascii) (ws key ws2 rest : str),
    forallb (fun c => negb (mem c (lit "{,"))) pre = true ->
    mem d (lit "{,") = true ->
    forallb isspace ws = true ->
    key <> [] -> forallb isword key = true ->
    forallb isspace ws2 = true ->
    fix_keys (pre ++ d :: ws ++ key ++ ws2 ++ ":" :: rest)
    = pre ++ d :: ws ++ dq :: key ++ dq :: ":" :: fix_keys rest.
Proof.
  intros pre d ws key ws2 rest Hpre Hd Hws Hne Hkey Hws2.
  destruct (fix_keys_match d ws key ws2 rest Hd Hws Hne Hkey Hws2)
    as (caps & Hmatch & Hg1 & Hg2).
  unfold fix_keys, re_sub.
  rewrite (re_sub_from_prefix _ _ _ fix_keys_needs_delimiter pre _ Hpre).
  f_equal. cbn [re_sub_from]. rewrite Hmatch.
  replace (List.length (d :: ws ++ key ++ ws2 ++ ":" :: rest) - List.length rest)
    with (S (List.length (ws ++ key ++ ws2 ++ [":"])))
    by (cbn [List.length]; rewrite !length_app; cbn [List.length]; lia).
  replace (ws ++ key ++ ws2 ++ ":" :: rest)
    with ((ws ++ key ++ ws2 ++ [":"]) ++ rest)
    by (now rewrite <- !app_assoc).
  rewrite re_sub_from_skip.
  unfold fix_keys_replace. rewrite Hg1, Hg2.
  destruct key as [|k0 key]; [contradiction|].
  simpl in Hkey. apply andb_true_iff in Hkey as [Hk0 _].
  destruct (isword_not_quote k0 Hk0) as [Hsq Hdq].
  cbn [startswith]. rewrite Hsq, Hdq. cbn [andb].
  repeat (rewrite <- app_assoc || rewrite <- app_comm_cons).
  reflexivity.
Qed.

Lemma fix_keys_quotes_bare_key_witness :
  fix_keys (lit "{" ++ lit " " ++ lit "name" ++ lit " " ++ ":" :: lit " 1}")
  = lit "{" ++ lit " " ++ dq :: lit "name" ++ dq :: ":" :: fix_keys (lit " 1}").
Proof.
  apply (fix_keys_quotes_bare_key [] "{" (lit " ") (lit "name") (lit " ") (lit " 1}"));
    try reflexivity.
  discriminate.
Defined.

(** ** The value-quoting pass *)






(** ** One failure rejects the whole *)

Lemma validate_properties_rejects
  (f : Schema -> value -> outcome value * value) (ps : list (str * Schema)) :
  forall (d : dict) (key : str) (sub_schema : Schema) (x : value),
    NoDup (map fst ps) ->
    In (key, sub_schema) ps ->
    dict_get d key = Some x ->
    fst (f sub_schema x) = Ret VNone ->
    fst (validate_properties f ps d) = Ret VNone
    \/ exists e, fst (validate_properties f ps d) = Raise e.
Proof.
  induction ps as [|[k0 s0] ps IH]; intros d key sub_schema x Hnd Hin Hget Hsub;
    [contradiction|].
  simpl in Hnd. inversion Hnd as [|? ? Hnotin Hnd']; subst.
  destruct Hin as [Heq|Hin].
  - injection Heq as -> ->. simpl. rewrite Hget.
    destruct (f sub_schema x) as [r x']. simpl in Hsub. subst r.
    left. reflexivity.
  - assert (Hne : k0 <> key).
    { intros ->. apply Hnotin.
      apply in_map_iff. exists (key, sub_schema). split; auto. }
    simpl. destruct (dict_get d k0) as [y|]; [|now apply (IH d key sub_schema x)].
    destruct (f s0 y) as [[w|e] y']; [|right; eexists; reflexivity].
    destruct w; try (left; reflexivity);
      (apply (IH _ key sub_schema x); auto;
       now rewrite dict_get_set_other).
Qed.

(** X20.  One rejected property rejects the mapping: when the keys of
    [properties] are distinct and the value under one of them is rejected
    by its sub-Schema, the object branch does not return the mapping; it
    rejects it, unless the coercion of an earlier property has raised. *)
Theorem rejected_property_rejects_mapping :
  forall (properties : list (str * Schema)) (items : option Schema)
         (required : list str) (key : str) (sub_schema : Schema)
         (d : dict) (x : value),
    NoDup (map fst properties) ->
    In (key, sub_schema) properties ->
    dict_get d key = Some x ->
    fst (validated sub_schema x) = Ret VNone ->
    let r := fst (validated (mkSchema (lit "object") properties items required)
                            (VDict d)) in
    r = Ret VNone \/ exists e, r = Raise e /\ coercion_error e.
Proof.
  intros properties items required key sub_schema d x Hnd Hin Hget Hsub r.
  assert (Hcases : r = Ret VNone \/ exists e, r = Raise e).
  { unfold r. cbn [validated].
    change (str_eqb (lit "object") (lit "object")) with true. cbv iota.
    unfold validate_mapping.
    pose proof (validate_properties_rejects validated properties d key
                  sub_schema x Hnd Hin Hget Hsub) as Hloop.
    destruct required as [|r0 required].
    - destruct (negb _); [now left|].
      destruct (validate_properties validated properties d) as [r' d'].
      exact Hloop.
    - destruct (filter _ (r0 :: required)); [|now left].
      destruct (validate_properties validated properties d) as [r' d'].
      exact Hloop. }
  destruct Hcases as [H|[e H]]; [now left|right].
  exists e. split; [exact H|].
  apply (validated_raises_in coercion_error) with (s := mkSchema (lit "object") properties items required)
                                               (data := VDict d);
    [intros s; exists s; auto|intros s; exists s; auto|exact H].
Qed.

Lemma rejected_property_rejects_mapping_witness :
  fst (validated schema_with_required
         (VDict [(lit "name", VStr (lit "Ann")); (lit "age", VInt 41);
                 (lit "emails", VInt 0)])) = Ret VNone
  \/ exists e,
      fst (validated schema_with_required
             (VDict [(lit "name", VStr (lit "Ann")); (lit "age", VInt 41);
                     (lit "emails", VInt 0)])) = Raise e
      /\ coercion_error e.
Proof.
  apply (rejected_property_rejects_mapping person_properties None
           [lit "name"; lit "age"] (lit "emails") emails_schema _ (VInt 0)).
  - apply distinct_NoDup. reflexivity.
  - simpl. right. right. left. reflexivity.
  - reflexivity.
  - reflexivity.
Defined.

Lemma validate_items_falsy (f : value -> outcome value * value) :
  forall (todo done : list value) (item w item' : value),
    In item todo ->
    f item = (Ret w, item') -> truthy w = false ->
    fst (validate_items f done todo) = Ret VNone
    \/ exists e, fst (validate_items f done todo) = Raise e.
Proof.
  induction todo as [|x todo IH]; intros done item w item' Hin Hitem Hw;
    [contradiction|].
  simpl. destruct Hin as [->|Hin].
  - rewrite Hitem, Hw. left. reflexivity.
  - destruct (f x) as [[u|e] x']; [|right; eexists; reflexivity].
    destruct (negb (truthy u)); [left; reflexivity|].
    now apply (IH _ item w item').
Qed.

(** X21.  One falsy item rejects the sequence: when the validation of
    an item gives [None], or a value that Python takes for false (zero,
    [False], an empty string, sequence or mapping), the array branch does
    not return the sequence; it rejects it, unless the coercion of an
    earlier item has raised. *)
Theorem falsy_item_rejects_sequence :
  forall (properties : list (str * Schema)) (items_schema : Schema)
         (required : list str) (l : list value) (item w item' : value),
    In item l ->
    validated items_schema item = (Ret w, item') ->
    truthy w = false ->
    let r := fst (validated (mkSchema (lit "array") properties
                                       (Some items_schema) required)
                            (VList l)) in
    r = Ret VNone \/ exists e, r = Raise e /\ coercion_error e.
Proof.
  intros properties items_schema required l item w item' Hin Hitem Hw r.
  assert (Hcases : r = Ret VNone \/ exists e, r = Raise e).
  { unfold r.
    change (validated _ (VList l))
      with (let (r, l') := validate_items (validated items_schema) [] l in
            (r, VList l')).
    pose proof (validate_items_falsy (validated items_schema) l [] item w item'
                  Hin Hitem Hw) as Hloop.
    destruct (validate_items (validated items_schema) [] l). exact Hloop. }
  destruct Hcases as [H|[e H]]; [now left|right].
  exists e. split; [exact H|].
  apply (validated_raises_in coercion_error)
    with (s := mkSchema (lit "array") properties (Some items_schema) required)
         (data := VList l);
    [intros s; exists s; auto|intros s; exists s; auto|exact H].
Qed.

Lemma falsy_item_rejects_sequence_witness :
  fst (validated (mkSchema (lit "array") [] (Some number_schema) [])
                 (VList [VInt 3; VInt 0])) = Ret VNone
  \/ exists e,
      fst (validated (mkSchema (lit "array") [] (Some number_schema) [])
                     (VList [VInt 3; VInt 0])) = Raise e
      /\ coercion_error e.
Proof.
  apply (falsy_item_rejects_sequence [] number_schema [] [VInt 3; VInt 0]
           (VInt 0) (VInt 0) (VInt 0)).
  - simpl. right. left. reflexivity.
  - reflexivity.
  - reflexivity.
Defined.

(** X22.  Given a mapping, the array branch looks at the first value of
    the mapping only: the outcome is that of this value when it is a
    sequence, whatever the other entries hold; a mapping that is empty or
    whose first value is no sequence is rejected. *)
Theorem array_branch_unwraps_first_value :
  forall (properties : list (str * Schema)) (items : option Schema)
         (required : list str),
    let schema := mkSchema (lit "array") properties items required in
    (forall (key : str) (l : list value) (rest : dict),
        fst (validated schema (VDict ((key, VList l) :: rest)))
        = fst (validated schema (VList l)))
    /\ (forall (key : str) (x : value) (rest : dict),
           (forall l, x <> VList l) ->
           fst (validated schema (VDict ((key, x) :: rest))) = Ret VNone)
    /\ fst (validated schema (VDict [])) = Ret VNone.
Proof.
  intros properties items required schema. unfold schema. cbn [validated].
  change (str_eqb (lit "array") (lit "object")) with false.
  change (str_eqb (lit "array") (lit "array")) with true. cbv iota.
  repeat split.
  - intros key l rest.
    now destruct (match items with Some _ => _ | None => _ end).
  - intros key x rest Hx. destruct x; try reflexivity.
    exfalso. now apply (Hx l).
Qed.

Lemma array_branch_unwraps_first_value_witness :
  fst (validated emails_schema (VDict [(lit "k", VInt 1)])) = Ret VNone.
Proof.
  apply (proj1 (proj2 (array_branch_unwraps_first_value [] (Some string_schema) []))
               (lit "k") (VInt 1) []).
  intros l H. discriminate H.
Defined.
